(** * Banking event dispatcher (task_2): PULL queue, PUSH callbacks, consumers, producer

    A shallow embedding of [event_manager.py], [consumer_push.py],
    [consumer_pull.py] and [producer.py], and the properties of the
    specification checked against it.

    Conventions of the embedding.
    - Python [int] is [Z]. Durations and clock readings (Python floats, in
      seconds) are [Z] counted in milliseconds: [1.0] is [1000], [0.05] is
      [50]; [amount] is counted in hundredths.
    - A method that mutates [self] is a state transformer; a method that can
      raise, or block for ever, returns an [outcome] next to the new state
      ([Py S A]).  The state is kept on a raise, as the Python object is.
    - What the other threads do while a call is blocked inside the queue is
      read from an oracle, [env]: one entry per wait.
    - Locks are not modelled: every method body runs atomically.
    - A callback is seen from the manager: it returns or it raises.  It does
      not change the payload it is given, nor call back into the manager. *)

From Stdlib Require Import ZArith List Lia Ascii.
From Stdlib Require Import Decimal DecimalString DecimalN.
From stdpp Require Import base decidable option list gmap strings.

Open Scope Z_scope.

#[local] Set Warnings "-clear-no-such-hyp".

(** ** Exceptions and outcomes *)

(** The exceptions that occur in the program.  [UserError] stands for any
    exception class derived from [Exception] that a callback may raise;
    [KeyboardInterrupt] and [SystemExit] derive from [BaseException] only. *)
Inductive exn : Type :=
  | QueueFull
  | QueueEmpty
  | ValueError (msg : string)
  | RuntimeError (msg : string)
  | UserError (name : string)
  | KeyboardInterrupt
  | SystemExit.

(** [isinstance(e, Exception)]: what [except Exception] catches. *)
Definition is_Exception (e : exn) : bool :=
  match e with
  | KeyboardInterrupt | SystemExit => false
  | _ => true
  end.

Inductive outcome (A : Type) : Type :=
  | Return (a : A)
  | Raise (e : exn)
  | Hang.
Arguments Return {A} a.
Arguments Raise {A} e.
Arguments Hang {A}.

Definition Py (S A : Type) : Type := S -> S * outcome A.

Definition ret {S A} (a : A) : Py S A := fun s => (s, Return a).
Definition raise {S A} (e : exn) : Py S A := fun s => (s, Raise e).
Definition hang {S A} : Py S A := fun s => (s, Hang).

Definition bind {S A B} (m : Py S A) (k : A -> Py S B) : Py S B :=
  fun s =>
    match m s with
    | (s', Return a) => k a s'
    | (s', Raise e) => (s', Raise e)
    | (s', Hang) => (s', Hang)
    end.

(** [try: body except <catches>: handler] *)
Definition try_except {S A} (body : Py S A) (catches : exn -> bool)
    (handler : exn -> Py S A) : Py S A :=
  fun s =>
    match body s with
    | (s', Raise e) => if catches e then handler e s' else (s', Raise e)
    | r => r
    end.

Definition modify {S} (f : S -> S) : Py S unit := fun s => (f s, Return tt).
Definition gets {S A} (f : S -> A) : Py S A := fun s => (s, Return (f s)).

Declare Scope py_scope.
Delimit Scope py_scope with py.
Notation "'let!' x ':=' c 'in' k" := (bind c (fun x => k))
  (at level 10, x name, c at level 200, k at level 200) : py_scope.
Notation "c >> k" := (bind c (fun _ => k))
  (at level 100, k at level 200, right associativity) : py_scope.
Open Scope py_scope.

(** [for x in xs: body(x)]; a raise leaves the loop. *)
Fixpoint for_each {S A} (xs : list A) (body : A -> Py S unit) : Py S unit :=
  match xs with
  | [] => ret tt
  | x :: xs' => body x >> for_each xs' body
  end.

(** [for _ in range(n): body] *)
Definition for_range {S} (n : Z) (body : Py S unit) : Py S unit :=
  for_each (replicate (Z.to_nat n) tt) (fun _ => body).

(** ** Events *)

Record Metadata : Type := mkMetadata {
  country_code : option string;
  channel : option string;
  currency : option string;
  status : option string
}.

Record Event : Type := mkEvent {
  event_id : Z;
  event_type : string;
  account_id : string;
  amount : Z;
  timestamp : Z;
  transaction_id : string;
  metadata : Metadata
}.

#[global] Instance Metadata_eq_dec : EqDecision Metadata.
Proof. solve_decision. Defined.
#[global] Instance Event_eq_dec : EqDecision Event.
Proof. solve_decision. Defined.

(** What a callback is called with: one event, or a list of events. *)
Inductive payload : Type :=
  | PEvent (e : Event)
  | PBatch (es : list Event).

#[global] Instance payload_eq_dec : EqDecision payload.
Proof. solve_decision. Defined.

(** A registered callable: its identity (what [list.remove] compares) and
    what a call does as far as the manager can see: return, or raise. *)
Record Callback : Type := mkCallback {
  cb_id : nat;
  cb_body : payload -> option exn
}.

(** ** What can be observed of a run *)
Inductive action : Type :=
  | Invoke (cb : nat) (p : payload)
  | Submit (cb : nat) (p : payload)
  | LogWarning (msg : string)
  | LogDebug (msg : string)
  | LogException (msg : string).

#[global] Instance action_eq_dec : EqDecision action.
Proof. solve_decision. Defined.

(** What another thread does while a call of this thread waits in the queue. *)
Inductive env_event : Type :=
  | ProducerAdds (e : Event)
  | ConsumerGets
  | Quiet.

(** ** queue.Queue *)
Module Queue.
Record t : Type := mk {
  items : list Event;
  maxsize : Z;
  unfinished_tasks : Z
}.

Definition new (maxsize : Z) : t := mk [] maxsize 0.

Definition qsize (q : t) : Z := Z.of_nat (length (items q)).
Definition empty (q : t) : bool := qsize q =? 0.
Definition is_full (q : t) : bool := (0 <? maxsize q) && (maxsize q <=? qsize q).

(** [_put(item); unfinished_tasks += 1] *)
Definition do_put (item : Event) (q : t) : t :=
  mk (items q ++ [item]) (maxsize q) (unfinished_tasks q + 1).

(** the queue once its oldest item is taken out *)
Definition without_head (q : t) : t :=
  mk (tail (items q)) (maxsize q) (unfinished_tasks q).
End Queue.

(** ** concurrent.futures.ThreadPoolExecutor *)
Record Executor : Type := mkExecutor {
  ex_shutdown : bool;
  ex_work : list (Callback * payload)
}.

(** ** BankingEventManager *)
Record Manager : Type := mkManager {
  events : Queue.t;
  _push_event_callbacks : list Callback;
  _push_batch_callbacks : list Callback;
  _push_executor : option Executor;
  _total_events_received : Z;
  _total_events_pushed : Z;
  _total_events_queued : Z;
  _stopped : bool
}.

(** The manager with what surrounds it: the other threads and the log. *)
Record World : Type := mkWorld {
  mgr : Manager;
  env : list env_event;
  trace : list action
}.

Definition set_mgr (f : Manager -> Manager) (w : World) : World :=
  mkWorld (f (mgr w)) (env w) (trace w).

Definition set_events (f : Queue.t -> Queue.t) (m : Manager) : Manager :=
  mkManager (f (events m)) (_push_event_callbacks m) (_push_batch_callbacks m)
    (_push_executor m) (_total_events_received m) (_total_events_pushed m)
    (_total_events_queued m) (_stopped m).

Definition set_event_callbacks (f : list Callback -> list Callback) (m : Manager) : Manager :=
  mkManager (events m) (f (_push_event_callbacks m)) (_push_batch_callbacks m)
    (_push_executor m) (_total_events_received m) (_total_events_pushed m)
    (_total_events_queued m) (_stopped m).

Definition set_batch_callbacks (f : list Callback -> list Callback) (m : Manager) : Manager :=
  mkManager (events m) (_push_event_callbacks m) (f (_push_batch_callbacks m))
    (_push_executor m) (_total_events_received m) (_total_events_pushed m)
    (_total_events_queued m) (_stopped m).

Definition set_executor (f : option Executor -> option Executor) (m : Manager) : Manager :=
  mkManager (events m) (_push_event_callbacks m) (_push_batch_callbacks m)
    (f (_push_executor m)) (_total_events_received m) (_total_events_pushed m)
    (_total_events_queued m) (_stopped m).

Definition set_received (f : Z -> Z) (m : Manager) : Manager :=
  mkManager (events m) (_push_event_callbacks m) (_push_batch_callbacks m)
    (_push_executor m) (f (_total_events_received m)) (_total_events_pushed m)
    (_total_events_queued m) (_stopped m).

Definition set_pushed (f : Z -> Z) (m : Manager) : Manager :=
  mkManager (events m) (_push_event_callbacks m) (_push_batch_callbacks m)
    (_push_executor m) (_total_events_received m) (f (_total_events_pushed m))
    (_total_events_queued m) (_stopped m).

Definition set_queued (f : Z -> Z) (m : Manager) : Manager :=
  mkManager (events m) (_push_event_callbacks m) (_push_batch_callbacks m)
    (_push_executor m) (_total_events_received m) (_total_events_pushed m)
    (f (_total_events_queued m)) (_stopped m).

Definition set_stopped (b : bool) (m : Manager) : Manager :=
  mkManager (events m) (_push_event_callbacks m) (_push_batch_callbacks m)
    (_push_executor m) (_total_events_received m) (_total_events_pushed m)
    (_total_events_queued m) b.

(** [logger.warning], [logger.debug], [logger.exception], and the record of a call *)
Definition log (a : action) : Py World unit :=
  modify (fun w => mkWorld (mgr w) (env w) (trace w ++ [a])).

(** *** The queue inside the manager, with the other threads around it *)

(** [while self._qsize() >= self.maxsize: self.not_full.wait(remaining)]:
    each wait is ended by another thread taking an item, or else by the
    deadline ([limited]) or by nothing at all. *)
Fixpoint wait_not_full (limited : bool) (evs : list env_event) (q : Queue.t)
    : list env_event * Queue.t * outcome unit :=
  if Queue.maxsize q <=? Queue.qsize q then
    match evs with
    | ConsumerGets :: evs' => wait_not_full limited evs' (Queue.without_head q)
    | _ :: evs' => (evs', q, if limited then Raise QueueFull else Hang)
    | [] => ([], q, if limited then Raise QueueFull else Hang)
    end
  else (evs, q, Return tt).

Definition await_not_full (limited : bool) : Py World unit :=
  fun w =>
    match wait_not_full limited (env w) (events (mgr w)) with
    | (evs, q, r) => (mkWorld (set_events (fun _ => q) (mgr w)) evs (trace w), r)
    end.

(** [Queue.put(item, block, timeout)] *)
Definition events_put (item : Event) (block : bool) (timeout : option Z) : Py World unit :=
  let! q := gets (fun w => events (mgr w)) in
  (if 0 <? Queue.maxsize q then
     if negb block then
       if Queue.maxsize q <=? Queue.qsize q then raise QueueFull else ret tt
     else
       match timeout with
       | None => await_not_full false
       | Some t =>
           if t <? 0 then raise (ValueError "'timeout' must be a non-negative number")
           else if Queue.maxsize q <=? Queue.qsize q then
             (if t =? 0 then raise QueueFull else await_not_full true)
           else ret tt
       end
   else ret tt) >>
  modify (set_mgr (set_events (Queue.do_put item))).

Definition events_put_nowait (item : Event) : Py World unit :=
  events_put item false None.

(** [while not self._qsize(): self.not_empty.wait(remaining)]: the wait is
    ended by another thread's [add_event(e)], or else by the deadline. *)
Definition await_not_empty (limited : bool) : Py World unit :=
  fun w =>
    if Queue.empty (events (mgr w)) then
      match env w with
      | ProducerAdds e :: evs' =>
          (mkWorld
             (set_queued (Z.add 1) (set_received (Z.add 1)
                (set_events (Queue.do_put e) (mgr w))))
             evs' (trace w), Return tt)
      | _ :: evs' =>
          (mkWorld (mgr w) evs' (trace w), if limited then Raise QueueEmpty else Hang)
      | [] => (w, if limited then Raise QueueEmpty else Hang)
      end
    else (w, Return tt).

(** [item = self._get()] *)
Definition events_take : Py World Event :=
  fun w =>
    match Queue.items (events (mgr w)) with
    | item :: _ => (set_mgr (set_events Queue.without_head) w, Return item)
    | [] => (w, Raise QueueEmpty)
    end.

(** [Queue.get(block, timeout)] *)
Definition events_get (block : bool) (timeout : option Z) : Py World Event :=
  let! q := gets (fun w => events (mgr w)) in
  (if negb block then
     if Queue.empty q then raise QueueEmpty else ret tt
   else
     match timeout with
     | None => await_not_empty false
     | Some t =>
         if t <? 0 then raise (ValueError "'timeout' must be a non-negative number")
         else if Queue.empty q then
           (if t =? 0 then raise QueueEmpty else await_not_empty true)
         else ret tt
     end) >>
  events_take.

Definition events_get_nowait : Py World Event := events_get false None.

(** [Queue.task_done()] *)
Definition events_task_done : Py World unit :=
  let! q := gets (fun w => events (mgr w)) in
  let unfinished := Queue.unfinished_tasks q - 1 in
  if unfinished <? 0 then raise (ValueError "task_done() called too many times")
  else modify (set_mgr (set_events (fun q =>
         Queue.mk (Queue.items q) (Queue.maxsize q) unfinished))).

(** [Queue.join()]: returns once no task is unfinished; the [task_done]
    calls it waits for are calls of other threads. *)
Definition events_join : Py World unit :=
  let! q := gets (fun w => events (mgr w)) in
  if Queue.unfinished_tasks q =? 0 then ret tt else hang.

(** *** Methods of BankingEventManager *)

(** [BankingEventManager(max_queue_size, push_executor_workers)] *)
Definition __init__ (max_queue_size : Z) (push_executor_workers : option Z) : Manager :=
  mkManager
    (if 0 <? max_queue_size then Queue.new max_queue_size else Queue.new 0)
    [] []
    (match push_executor_workers with
     | Some n => if 0 <? n then Some (mkExecutor false []) else None
     | None => None
     end)
    0 0 0 false.

Definition bump_received_queued : Py World unit :=
  modify (set_mgr (fun m => set_queued (Z.add 1) (set_received (Z.add 1) m))).

Definition is_QueueFull (e : exn) : bool :=
  match e with QueueFull => true | _ => false end.

Definition add_event (event : Event) (block : bool) (timeout : option Z) : Py World unit :=
  try_except
    ((if block then events_put event true timeout else events_put_nowait event) >>
     bump_received_queued)
    is_QueueFull
    (fun _ =>
       log (LogWarning "Queue full - blocking put for event") >>
       events_put event true (Some 1000) >>
       bump_received_queued).

Definition add_events_batch (events : list Event) (block : bool) : Py World unit :=
  for_each events (fun ev =>
    try_except (add_event ev block None)
      is_Exception
      (fun _ =>
         log (LogException "Error adding event in batch, retrying with blocking put") >>
         add_event ev true (Some 1000))).

Definition is_QueueEmpty (e : exn) : bool :=
  match e with QueueEmpty => true | _ => false end.

Definition get_event (timeout : option Z) : Py World (option Event) :=
  try_except
    (let! ev := events_get true timeout in ret (Some ev))
    is_QueueEmpty
    (fun _ => ret None).

(** The draining loop of [get_events_batch]: [k] more rounds, [break] on [Empty]. *)
Fixpoint drain_nowait (k : nat) (batch : list Event) : Py World (list Event) :=
  match k with
  | O => ret batch
  | S k' =>
      fun w =>
        match events_get_nowait w with
        | (w', Return ev) => drain_nowait k' (batch ++ [ev]) w'
        | (w', Raise QueueEmpty) => (w', Return batch)
        | (w', Raise e) => (w', Raise e)
        | (w', Hang) => (w', Hang)
        end
  end.

Definition get_events_batch (batch_size : Z) (timeout : option Z) : Py World (list Event) :=
  let batch := [] in
  let! first := get_event timeout in
  match first with
  | None => ret batch
  | Some first => drain_nowait (Z.to_nat (batch_size - 1)) (batch ++ [first])
  end.

Definition task_done (n : Z) : Py World unit :=
  for_range n
    (try_except
       (events_task_done >>
        modify (set_mgr (fun m =>
          if 0 <? _total_events_queued m then set_queued (fun c => c - 1) m else m)))
       is_Exception
       (fun _ => log (LogDebug "task_done called too many times or when queue not tracked"))).

Definition join : Py World unit :=
  try_except events_join is_Exception
    (fun _ => log (LogException "Error while waiting for queue.join()")).

Definition register_push_callback (callback : Callback) : Py World unit :=
  modify (set_mgr (set_event_callbacks (fun l => l ++ [callback]))).

(** [list.remove(x)] with its [ValueError] swallowed: the first entry equal
    to [x] goes, if there is one. *)
Fixpoint remove_first (callback : Callback) (l : list Callback) : list Callback :=
  match l with
  | [] => []
  | c :: l' => if Nat.eqb (cb_id c) (cb_id callback) then l' else c :: remove_first callback l'
  end.

Definition unregister_push_callback (callback : Callback) : Py World unit :=
  modify (set_mgr (set_event_callbacks (remove_first callback))).

Definition register_push_batch_callback (callback : Callback) : Py World unit :=
  modify (set_mgr (set_batch_callbacks (fun l => l ++ [callback]))).

Definition unregister_push_batch_callback (callback : Callback) : Py World unit :=
  modify (set_mgr (set_batch_callbacks (remove_first callback))).

(** [cb(payload)] *)
Definition call (cb : Callback) (p : payload) : Py World unit :=
  log (Invoke (cb_id cb) p) >>
  match cb_body cb p with
  | Some e => raise e
  | None => ret tt
  end.

Definition _safe_call (cb : Callback) (p : payload) : Py World unit :=
  try_except (call cb p) is_Exception
    (fun exc => log (LogException "Exception in push callback: %s")).

(** [self._push_executor.submit(self._safe_call, cb, payload)] *)
Definition executor_submit (cb : Callback) (p : payload) : Py World unit :=
  fun w =>
    match _push_executor (mgr w) with
    | Some ex =>
        if ex_shutdown ex then
          (w, Raise (RuntimeError "cannot schedule new futures after shutdown"))
        else
          (mkWorld
             (set_executor (fun _ => Some (mkExecutor false (ex_work ex ++ [(cb, p)]))) (mgr w))
             (env w) (trace w ++ [Submit (cb_id cb) p]),
           Return tt)
    | None => (w, Raise (RuntimeError "no executor"))
    end.

(** The pool working off what was submitted: each item runs [_safe_call];
    what a work item raises stays in its future. *)
Definition executor_run : Py World unit :=
  let! work := gets (fun w =>
    match _push_executor (mgr w) with Some ex => ex_work ex | None => [] end) in
  modify (set_mgr (set_executor (fun o =>
    match o with Some ex => Some (mkExecutor (ex_shutdown ex) []) | None => None end))) >>
  for_each work (fun item =>
    try_except (_safe_call (fst item) (snd item)) (fun _ => true) (fun _ => ret tt)).

Definition has_executor (w : World) : bool :=
  match _push_executor (mgr w) with Some _ => true | None => false end.

Definition dispatch (label : string) (callbacks : list Callback) (p : payload) : Py World unit :=
  let! async := gets has_executor in
  if async then
    for_each callbacks (fun cb =>
      try_except (executor_submit cb p) is_Exception
        (fun _ => log (LogException label)))
  else
    for_each callbacks (fun cb => _safe_call cb p).

Definition _dispatch_to_callbacks (callbacks : list Callback) (event : Event) : Py World unit :=
  dispatch "Failed to submit callback to executor" callbacks (PEvent event).

Definition _dispatch_batch_to_callbacks (callbacks : list Callback) (events : list Event)
    : Py World unit :=
  dispatch "Failed to submit batch callback to executor" callbacks (PBatch events).

Definition nonempty {A} (l : list A) : bool :=
  match l with [] => false | _ => true end.

Definition push_event (event : Event) : Py World unit :=
  let! event_callbacks := gets (fun w => _push_event_callbacks (mgr w)) in
  let! batch_callbacks := gets (fun w => _push_batch_callbacks (mgr w)) in
  (if nonempty batch_callbacks
   then _dispatch_batch_to_callbacks batch_callbacks [event] else ret tt) >>
  (if nonempty event_callbacks
   then _dispatch_to_callbacks event_callbacks event else ret tt) >>
  modify (set_mgr (fun m => set_pushed (Z.add 1) (set_received (Z.add 1) m))).

Definition push_events_batch (events : list Event) : Py World unit :=
  if negb (nonempty events) then ret tt
  else
    let! batch_callbacks := gets (fun w => _push_batch_callbacks (mgr w)) in
    let! event_callbacks := gets (fun w => _push_event_callbacks (mgr w)) in
    (if nonempty batch_callbacks
     then _dispatch_batch_to_callbacks batch_callbacks events else ret tt) >>
    (if nonempty event_callbacks
     then for_each events (fun ev => _dispatch_to_callbacks event_callbacks ev)
     else ret tt) >>
    modify (set_mgr (fun m =>
      set_pushed (Z.add (Z.of_nat (length events)))
        (set_received (Z.add (Z.of_nat (length events))) m))).

Definition stop : Py World unit := modify (set_mgr (set_stopped true)).
Definition stopped : Py World bool := gets (fun w => _stopped (mgr w)).
Definition get_queue_size : Py World Z := gets (fun w => Queue.qsize (events (mgr w))).
Definition has_events : Py World bool := gets (fun w => negb (Queue.empty (events (mgr w)))).
Definition get_total_received : Py World Z := gets (fun w => _total_events_received (mgr w)).
Definition get_total_pushed : Py World Z := gets (fun w => _total_events_pushed (mgr w)).
Definition get_total_queued : Py World Z := gets (fun w => _total_events_queued (mgr w)).

(** ** The sqlite table [banking_events] *)
Module Sink.
(** One stored row.  [payload] is the event itself ([json.dumps(e)]). *)
Record row : Type := mkRow {
  col_event_id : Z;
  col_event_type : string;
  col_account_id : string;
  col_amount : Z;
  col_timestamp : Z;
  col_transaction_id : string;
  col_country_code : option string;
  col_channel : option string;
  col_currency : option string;
  col_status : option string;
  col_processed_at : Z;
  col_payload : Event
}.

(** The tuple [_bulk_insert] builds for an event. *)
Definition row_of (now : Z) (e : Event) : row :=
  mkRow (event_id e) (event_type e) (account_id e) (amount e) (timestamp e)
    (transaction_id e)
    (country_code (metadata e)) (channel (metadata e))
    (currency (metadata e)) (status (metadata e))
    now e.

(** The uniqueness constraints of the table:
    [event_id INTEGER PRIMARY KEY] and [transaction_id TEXT UNIQUE]. *)
Definition conflicts (r r' : row) : bool :=
  (col_event_id r =? col_event_id r')
  || bool_decide (col_transaction_id r = col_transaction_id r').

(** [INSERT OR IGNORE]: a row that breaks a constraint is skipped. *)
Definition insert_or_ignore (table : list row) (r : row) : list row :=
  if existsb (conflicts r) table then table else table ++ [r].

(** [cursor.executemany("INSERT OR IGNORE ...", data)] *)
Definition executemany (table : list row) (data : list row) : list row :=
  foldl insert_or_ignore table data.

(** [SELECT COUNT( * ) FROM banking_events] *)
Definition count (table : list row) : Z := Z.of_nat (length table).

(** [_init_database]: the file is removed and the table created anew. *)
Definition _init_database : list row := [].

(** [_bulk_insert(events)], the same in both consumers. *)
Definition _bulk_insert (now : Z) (events : list Event) (table : list row) : list row :=
  if negb (nonempty events) then table
  else executemany table (map (row_of now) events).
End Sink.

(** ** BankingConsumerPush *)
Module ConsumerPush.
(** [bulk_insert_calls] is not a field of the class: it records the
    argument of every call of [_bulk_insert], oldest first. *)
Record t : Type := mk {
  batch_size : Z;
  event_batch : list Event;
  events_processed : Z;
  start_time : option Z;
  end_time : option Z;
  db : list Sink.row;
  bulk_insert_calls : list (list Event)
}.

Definition __init__ (batch_size : Z) : t :=
  mk batch_size [] 0 None None Sink._init_database [].

Definition _bulk_insert (now : Z) (events : list Event) (c : t) : t :=
  mk (batch_size c) (event_batch c) (events_processed c) (start_time c) (end_time c)
    (Sink._bulk_insert now events (db c))
    (bulk_insert_calls c ++ [events]).

Definition _process_batch (now : Z) (c : t) : t :=
  let batch_to_insert := event_batch c in
  let c := mk (batch_size c) [] (events_processed c) (start_time c) (end_time c)
             (db c) (bulk_insert_calls c) in
  let c := _bulk_insert now batch_to_insert c in
  mk (batch_size c) (event_batch c)
    (events_processed c + Z.of_nat (length batch_to_insert))
    (start_time c) (end_time c) (db c) (bulk_insert_calls c).

Definition on_event_received (now : Z) (event : Event) (c : t) : t :=
  let c := mk (batch_size c) (event_batch c) (events_processed c)
             (match start_time c with None => Some now | st => st end)
             (end_time c) (db c) (bulk_insert_calls c) in
  let c := mk (batch_size c) (event_batch c ++ [event]) (events_processed c)
             (start_time c) (end_time c) (db c) (bulk_insert_calls c) in
  if batch_size c <=? Z.of_nat (length (event_batch c))
  then _process_batch now c else c.

Definition finish (now : Z) (c : t) : t :=
  let c := if nonempty (event_batch c) then _process_batch now c else c in
  mk (batch_size c) (event_batch c) (events_processed c) (start_time c)
    (Some now) (db c) (bulk_insert_calls c).

(** [register]: the bound method [on_event_received] handed to the manager;
    seen from the manager it returns without raising. *)
Definition register (id : nat) : Py World unit :=
  register_push_callback (mkCallback id (fun _ => None)).

Definition get_database_stats (c : t) : Z := Sink.count (db c).

(** The events delivered one at a time, oldest first. *)
Definition feed (now : Z) (events : list Event) (c : t) : t :=
  foldl (fun c e => on_event_received now e c) c events.
End ConsumerPush.

(** ** BankingConsumerPull *)
Module ConsumerPull.
Record t : Type := mk {
  batch_size : Z;
  events_processed : Z;
  start_time : option Z;
  end_time : option Z;
  running : bool;
  db : list Sink.row;
  bulk_insert_calls : list (list Event)
}.

Definition __init__ (batch_size : Z) : t :=
  mk batch_size 0 None None false Sink._init_database [].

Definition _bulk_insert (now : Z) (events : list Event) (c : t) : t :=
  mk (batch_size c) (events_processed c) (start_time c) (end_time c) (running c)
    (Sink._bulk_insert now events (db c))
    (bulk_insert_calls c ++ [events]).


Definition stop (c : t) : t :=
  mk (batch_size c) (events_processed c) (start_time c) (end_time c) false
    (db c) (bulk_insert_calls c).

(** The state of a run of [start_consuming]: the manager, the consumer, and
    the local list [batch]. *)
Definition state : Type := World * t * list Event.




Definition get_database_stats (c : t) : Z := Sink.count (db c).
End ConsumerPull.

(** ** Formatting integers: the format specification [0{width}d] *)

(** [str(n)] for a natural number *)
Definition digits (n : N) : string :=
  NilEmpty.string_of_uint (N.to_uint n).

Fixpoint zeros (k : nat) (s : string) : string :=
  match k with
  | O => s
  | S k' => String "0"%char (zeros k' s)
  end.

(** the digits, with zeros in front up to [width] characters *)
Definition zfill (width : nat) (s : string) : string :=
  zeros (width - String.length s) s.

(** [f"{z:0{width}d}"]: the sign comes first and counts in the width *)
Definition format_0d (width : nat) (z : Z) : string :=
  if z <? 0 then String "-"%char (zfill (width - 1) (digits (Z.to_N (- z))))
  else zfill width (digits (Z.to_N z)).

(** ** BankingEventProducer *)
Module Producer.
Definition EVENT_TYPES : list string :=
  ["TRANSACTION"; "DEPOSIT"; "WITHDRAWAL"; "TRANSFER"; "PAYMENT"; "FEE"; "REFUND";
   "REVERSAL"; "AUTHORIZATION"; "CAPTURE"; "VOID"; "SETTLEMENT"; "PARTIAL_REFUND";
   "PARTIAL_VOID"; "PARTIAL_AUTHORIZATION"; "PARTIAL_CAPTURE"; "PARTIAL_SETTLEMENT"].
Definition CURRENCY_TYPES : list string :=
  ["USD"; "EUR"; "GBP"; "JPY"; "CNY"; "INR"; "BDT"; "PKR"; "NGN"; "ZAR"; "CAD"; "AUD";
   "CHF"; "CNY"; "HKD"; "INR"; "MXN"; "NZD"; "RUB"; "SAR"; "SGD"; "THB"; "TRY"; "TWD";
   "ZAR"].
Definition STATUS_TYPES : list string :=
  ["PENDING"; "COMPLETED"; "FAILED"; "CANCELLED"; "REFUNDED"; "REVERSED"; "REJECTED";
   "EXPIRED"; "AUTHORIZED"; "CAPTURED"; "VOIDED"; "SETTLED"; "PARTIALLY_SETTLED";
   "PARTIALLY_REFUNDED"; "PARTIALLY_VOIDED"; "PARTIALLY_AUTHORIZED";
   "PARTIALLY_CAPTURED"; "PARTIALLY_REFUNDED"; "PARTIALLY_VOIDED";
   "PARTIALLY_AUTHORIZED"; "PARTIALLY_CAPTURED"].
Definition COUNTRY_CODES : list string :=
  ["US"; "GB"; "DE"; "FR"; "IT"; "ES"; "NL"; "BE"; "CH"; "AT"; "SE"; "NO"; "DK"; "FI";
   "PL"; "CZ"; "HU"; "RO"; "BG"; "HR"; "ME"; "AL"; "MK"; "RS"; "SI"; "BA"; "XK"].
Definition CHANNEL_TYPES : list string :=
  ["ATM"; "ONLINE"; "MOBILE"; "BRANCH"; "API"; "POS"; "KIOSK"; "TERMINAL"; "WEB"; "APP";
   "SMS"; "EMAIL"; "PHONE"; "CHAT"; "VOICE"; "FAX"; "LETTER"; "MMS"; "PUSH";
   "EMAIL"; "PHONE"; "CHAT"; "VOICE"; "FAX"; "LETTER"; "MMS"; "PUSH";
   "EMAIL"; "PHONE"; "CHAT"; "VOICE"; "FAX"; "LETTER"; "MMS"; "PUSH";
   "EMAIL"; "PHONE"; "CHAT"; "VOICE"; "FAX"; "LETTER"; "MMS"; "PUSH"].

Record t : Type := mk {
  num_events : Z;
  batch_size : Z;
  push_mode : bool;
  events_produced : Z;
  start_time : option Z;
  end_time : option Z
}.

Definition __init__ (num_events batch_size : Z) (push_mode : bool) : t :=
  mk num_events batch_size push_mode 0 None None.

(** [self.account_ids[i]]: the list is [f"ACC{i:06d}"] for [i] from 1 to 10000. *)
Definition account_ids (i : nat) : string :=
  "ACC" +:+ format_0d 6 (Z.of_nat i mod 10000 + 1).

(** What the random source and the clock give for one event: the index each
    [random.choice] picks, the amount [round(random.uniform(..), 2)] in
    hundredths, and [time.time()]. *)
Record draws : Type := mkDraws {
  pick_event_type : nat;
  pick_account : nat;
  pick_amount : Z;
  pick_country : nat;
  pick_channel : nat;
  pick_currency : nat;
  pick_status : nat;
  clock : Z
}.

(** [random.choice(seq)] with the index drawn *)
Definition choice (l : list string) (i : nat) : string :=
  nth (i mod length l) l "".

Definition _generate_event (rnd : draws) (event_id : Z) : Event :=
  mkEvent
    event_id
    (choice EVENT_TYPES (pick_event_type rnd))
    (account_ids (pick_account rnd))
    (pick_amount rnd)
    (clock rnd)
    ("TXN" +:+ format_0d 10 event_id)
    (mkMetadata
       (Some (choice COUNTRY_CODES (pick_country rnd)))
       (Some (choice CHANNEL_TYPES (pick_channel rnd)))
       (Some (choice CURRENCY_TYPES (pick_currency rnd)))
       (Some (choice STATUS_TYPES (pick_status rnd)))).

(** The producer runs against the manager. *)
Definition state : Type := World * t.

Definition on_manager {A} (m : Py World A) : Py state A :=
  fun st =>
    match m (fst st) with
    | (w', r) => ((w', snd st), r)
    end.

Definition _send_batch (batch : list Event) : Py state unit :=
  let! push := gets (fun st : state => push_mode (snd st)) in
  (if push then on_manager (push_events_batch batch)
   else on_manager (add_events_batch batch false)) >>
  modify (fun st : state =>
    let p := snd st in
    (fst st, mk (num_events p) (batch_size p) (push_mode p)
               (events_produced p + Z.of_nat (length batch))
               (start_time p) (end_time p))).

(** The [for i in range(self.num_events)] loop, with its local [batch]. *)
Fixpoint produce_loop (rnd : Z -> draws) (ids : list Z) (batch : list Event)
    : Py state (list Event) :=
  match ids with
  | [] => ret batch
  | i :: ids' =>
      let ev := _generate_event (rnd i) i in
      let batch := batch ++ [ev] in
      let! size := gets (fun st : state => batch_size (snd st)) in
      if size <=? Z.of_nat (length batch) then
        _send_batch batch >> produce_loop rnd ids' []
      else produce_loop rnd ids' batch
  end.

Definition produce_events (rnd : Z -> draws) (t0 t1 : Z) : Py state unit :=
  modify (fun st : state =>
    let p := snd st in
    (fst st, mk (num_events p) (batch_size p) (push_mode p) (events_produced p)
               (Some t0) (end_time p))) >>
  let! n := gets (fun st : state => num_events (snd st)) in
  let! batch := produce_loop rnd (seqZ 0 n) [] in
  (if nonempty batch then _send_batch batch else ret tt) >>
  modify (fun st : state =>
    let p := snd st in
    (fst st, mk (num_events p) (batch_size p) (push_mode p) (events_produced p)
               (start_time p) (Some t1))).
End Producer.

(** ** Runs: sequences of calls on the manager *)

Inductive mgr_call : Type :=
  | Call_add_event (event : Event) (block : bool) (timeout : option Z)
  | Call_add_events_batch (events : list Event) (block : bool)
  | Call_get_event (timeout : option Z)
  | Call_get_events_batch (batch_size : Z) (timeout : option Z)
  | Call_task_done (n : Z)
  | Call_join
  | Call_register_push_callback (callback : Callback)
  | Call_unregister_push_callback (callback : Callback)
  | Call_register_push_batch_callback (callback : Callback)
  | Call_unregister_push_batch_callback (callback : Callback)
  | Call_push_event (event : Event)
  | Call_push_events_batch (events : list Event)
  | Call_stop
  | Call_stopped
  | Call_get_queue_size
  | Call_has_events
  | Call_get_total_received
  | Call_get_total_pushed
  | Call_get_total_queued
  | Pool_runs.

(** The world after a call; what the call returned or raised is dropped. *)
Definition after (c : mgr_call) (w : World) : World :=
  match c with
  | Call_add_event ev b t => fst (add_event ev b t w)
  | Call_add_events_batch evs b => fst (add_events_batch evs b w)
  | Call_get_event t => fst (get_event t w)
  | Call_get_events_batch n t => fst (get_events_batch n t w)
  | Call_task_done n => fst (task_done n w)
  | Call_join => fst (join w)
  | Call_register_push_callback cb => fst (register_push_callback cb w)
  | Call_unregister_push_callback cb => fst (unregister_push_callback cb w)
  | Call_register_push_batch_callback cb => fst (register_push_batch_callback cb w)
  | Call_unregister_push_batch_callback cb => fst (unregister_push_batch_callback cb w)
  | Call_push_event ev => fst (push_event ev w)
  | Call_push_events_batch evs => fst (push_events_batch evs w)
  | Call_stop => fst (stop w)
  | Call_stopped => fst (stopped w)
  | Call_get_queue_size => fst (get_queue_size w)
  | Call_has_events => fst (has_events w)
  | Call_get_total_received => fst (get_total_received w)
  | Call_get_total_pushed => fst (get_total_pushed w)
  | Call_get_total_queued => fst (get_total_queued w)
  | Pool_runs => fst (executor_run w)
  end.

Definition run (calls : list mgr_call) (w : World) : World :=
  foldl (fun w c => after c w) w calls.

(** A manager just built, with any behaviour of the other threads. *)
Definition fresh (max_queue_size : Z) (push_executor_workers : option Z)
    (others : list env_event) : World :=
  mkWorld (__init__ max_queue_size push_executor_workers) others [].

(** ** Vocabulary of the properties *)

Definition received (w : World) : Z := _total_events_received (mgr w).
Definition pushed (w : World) : Z := _total_events_pushed (mgr w).
Definition queued (w : World) : Z := _total_events_queued (mgr w).

(** How many items a call acknowledges. *)
Definition acknowledged (c : mgr_call) : Z :=
  match c with
  | Call_task_done n => Z.max 0 n
  | _ => 0
  end.

(** From [w] to [w'] no counter went down, but [queued] by at most [d], and
    not below zero. *)
Definition grows (d : Z) (w w' : World) : Prop :=
  received w <= received w' /\
  pushed w <= pushed w' /\
  queued w - d <= queued w' /\
  (0 <= queued w -> 0 <= queued w').

Definition keeps {A} (d : Z) (m : Py World A) : Prop :=
  forall w, grows d w (fst (m w)).

(** The log and the call records with [delta] added. *)
Definition add_trace (delta : list action) (w : World) : World :=
  mkWorld (mgr w) (env w) (trace w ++ delta).

(** A call of [cb] on [p] returns, or raises an instance of [Exception]. *)
Definition tame (item : Callback * payload) : bool :=
  match cb_body (fst item) (snd item) with
  | Some e => is_Exception e
  | None => true
  end.

(** What [_safe_call] on an item leaves in the trace: the call, and the log
    entry if the call raised an instance of [Exception]. *)
Definition call_trace (item : Callback * payload) : list action :=
  Invoke (cb_id (fst item)) (snd item) ::
  match cb_body (fst item) (snd item) with
  | Some e => if is_Exception e then [LogException "Exception in push callback: %s"] else []
  | None => []
  end.

Definition is_delivery (a : action) : bool :=
  match a with
  | Invoke _ _ | Submit _ _ => true
  | _ => false
  end.

(** The calls and submissions in a stretch of the trace, in order. *)
Definition deliveries (tr : list action) : list action := filter is_delivery tr.

(** How a callback is handed its payload: called at once, or submitted to the pool. *)
Definition handed (async : bool) (item : Callback * payload) : action :=
  if async then Submit (cb_id (fst item)) (snd item)
  else Invoke (cb_id (fst item)) (snd item).

(** The pool takes submissions. *)
Definition accepting (w : World) : bool :=
  match _push_executor (mgr w) with
  | Some ex => negb (ex_shutdown ex)
  | None => true
  end.

(** The world once the pool has taken [items], in this order. *)
Definition submit_all (items : list (Callback * payload)) (w : World) : World :=
  mkWorld
    (set_executor (fun o =>
       match o with
       | Some ex => Some (mkExecutor (ex_shutdown ex) (ex_work ex ++ items))
       | None => None
       end) (mgr w))
    (env w)
    (trace w ++ map (handed true) items).

(** [n] more events received and pushed. *)
Definition bump (n : Z) (w : World) : World :=
  set_mgr (fun m => set_pushed (Z.add n) (set_received (Z.add n) m)) w.

(** The two pushing calls, and what each owes to the registered callbacks. *)
Inductive push : Type :=
  | PushOne (event : Event)
  | PushMany (events : list Event).

Definition perform (p : push) : Py World unit :=
  match p with
  | PushOne event => push_event event
  | PushMany events => push_events_batch events
  end.

Definition due_batch (w : World) (events : list Event) : list (Callback * payload) :=
  map (fun cb => (cb, PBatch events)) (_push_batch_callbacks (mgr w)).

Definition due_each (w : World) (events : list Event) : list (Callback * payload) :=
  flat_map (fun ev => map (fun cb => (cb, PEvent ev)) (_push_event_callbacks (mgr w))) events.

Definition due (w : World) (p : push) : list (Callback * payload) :=
  match p with
  | PushOne event => due_batch w [event] ++ due_each w [event]
  | PushMany events =>
      if nonempty events then due_batch w events ++ due_each w events else []
  end.

Definition credited (p : push) : Z :=
  match p with
  | PushOne _ => 1
  | PushMany events => Z.of_nat (length events)
  end.

(** Whatever a callback raises on the pushing thread is an instance of
    [Exception]; with a pool no callback runs on the pushing thread. *)
Definition contained (w : World) (p : push) : bool :=
  has_executor w || forallb tame (due w p).

(** [contained], and the pool, if there is one, takes submissions. *)
Definition orderly (w : World) (p : push) : bool :=
  if has_executor w then accepting w else forallb tame (due w p).

(** What is waiting in the pool. *)
Definition pool_work (w : World) : list (Callback * payload) :=
  match _push_executor (mgr w) with
  | Some ex => ex_work ex
  | None => []
  end.

(** The world with nothing left waiting in the pool. *)
Definition pool_emptied (w : World) : World :=
  set_mgr (set_executor (fun o =>
    match o with
    | Some ex => Some (mkExecutor (ex_shutdown ex) [])
    | None => None
    end)) w.

(** The event, if any, that another thread adds while a [get] with this
    timeout waits on the empty queue. *)
Definition arrival (timeout : option Z) (w : World) : option Event :=
  match timeout, env w with
  | Some 0, _ => None
  | _, ProducerAdds e :: _ => Some e
  | _, _ => None
  end.

(** What a [get] that waits finds in the queue: what is there, else what arrives. *)
Definition available (timeout : option Z) (w : World) : list Event :=
  match Queue.items (events (mgr w)) with
  | [] => match arrival timeout w with Some e => [e] | None => [] end
  | q => q
  end.

(** The world once the [k] oldest items have left the queue. *)
Definition taken (k : nat) (w : World) : World :=
  set_mgr (set_events (fun q =>
    Queue.mk (drop k (Queue.items q)) (Queue.maxsize q) (Queue.unfinished_tasks q))) w.

(** The world once the wait of a [get] on the empty queue is over. *)
Definition waited (timeout : option Z) (w : World) : World :=
  match Queue.items (events (mgr w)), timeout with
  | [], Some 0 => w
  | [], _ => fst (await_not_empty true w)
  | _, _ => w
  end.

(** Two events carry the same [event_id] exactly when they carry the same
    [transaction_id], as the events of the producer do. *)
Definition keyed (events : list Event) : Prop :=
  forall e e', e ∈ events -> e' ∈ events ->
    (event_id e = event_id e' <-> transaction_id e = transaction_id e').

(** The distinct [transaction_id]s of a list of events. *)
Definition transaction_ids (events : list Event) : gset string :=
  list_to_set (transaction_id <$> events).


Definition produced (st : Producer.state) : Z := Producer.events_produced (snd st).

(** The [transaction_id]s stored in a table, in the order of the rows. *)
Definition stored_ids (table : list Sink.row) : list string :=
  Sink.col_transaction_id <$> table.

(** Every row of the table was made from one of [events]. *)
Definition made_from (events : list Event) (table : list Sink.row) : Prop :=
  forall r, r ∈ table ->
    exists e, e ∈ events /\ Sink.col_event_id r = event_id e
      /\ Sink.col_transaction_id r = transaction_id e.

(** The number a string of decimal digits stands for, leading zeros allowed. *)
Definition value (s : string) : option N :=
  option_map N.of_uint (NilEmpty.uint_of_string s).

(** ** Small inputs for the examples *)

Definition sample (i : Z) (txn : string) : Event :=
  mkEvent i "DEPOSIT" "ACC000001" 1000 0 txn (mkMetadata None None None None).

Definition some_draws : Producer.draws := Producer.mkDraws 3 41 123456 5 6 7 8 1700000000000.

Definition returning (id : nat) : Callback := mkCallback id (fun _ => None).
Definition raising (id : nat) (e : exn) : Callback := mkCallback id (fun _ => Some e).

(** ** Vocabulary of the further properties *)

Definition unfinished (w : World) : Z := Queue.unfinished_tasks (events (mgr w)).
Definition in_queue (w : World) : list Event := Queue.items (events (mgr w)).
Definition capacity (w : World) : Z := Queue.maxsize (events (mgr w)).

(** What holds of the queue of a manager however it was used: the queued
    counter is the number of unfinished tasks, which is not negative, and a
    bounded queue holds no more than its capacity. *)
Definition sound (w : World) : Prop :=
  queued w = unfinished w /\
  0 <= unfinished w /\
  (0 < capacity w -> Z.of_nat (length (in_queue w)) <= capacity w).

(** A computation takes every world to a world related to it by [R]. *)
Definition respects {A} (R : World -> World -> Prop) (m : Py World A) : Prop :=
  forall w, R w (fst (m w)).

(** A relation between the world before and the world after that holds when
    nothing happens, composes, and is kept by every entry in the log that is
    not a call or a submission. *)
Class Frame (R : World -> World -> Prop) : Prop := {
  frame_refl : forall w, R w w;
  frame_trans : forall w1 w2 w3, R w1 w2 -> R w2 w3 -> R w1 w3;
  frame_log : forall a, is_delivery a = false -> respects R (log a)
}.

(** Putting a call on record takes every world to a world related by [R]. *)
Definition respects_invoke (R : World -> World -> Prop) : Prop :=
  forall id p, respects R (log (Invoke id p)).

(** The stop flag, the registries, the capacity and the pool are as before. *)
Definition same_setup (w w' : World) : Prop :=
  _stopped (mgr w') = _stopped (mgr w) /\
  _push_event_callbacks (mgr w') = _push_event_callbacks (mgr w) /\
  _push_batch_callbacks (mgr w') = _push_batch_callbacks (mgr w) /\
  capacity w' = capacity w /\
  has_executor w' = has_executor w /\
  accepting w' = accepting w.

(** The queue, the queued counter and the other threads are as before. *)
Definition same_queue (w w' : World) : Prop :=
  events (mgr w') = events (mgr w) /\
  queued w' = queued w /\
  env w' = env w.

(** Nothing was pushed: the pushed counter, the work of the pool and the
    calls and submissions on record are as before. *)
Definition same_push (w w' : World) : Prop :=
  pushed w' = pushed w /\
  pool_work w' = pool_work w /\
  deliveries (trace w') = deliveries (trace w).

(** [P] holds after if it held before. *)
Definition stays (P : World -> Prop) (w w' : World) : Prop := P w -> P w'.

(** The calls that take from, add to or acknowledge the queue. *)
Definition is_pull_call (c : mgr_call) : bool :=
  match c with
  | Call_add_event _ _ _ | Call_add_events_batch _ _ | Call_get_event _
  | Call_get_events_batch _ _ | Call_task_done _ | Call_join => true
  | _ => false
  end.

(** The calls that change the registries. *)
Definition is_registry_call (c : mgr_call) : bool :=
  match c with
  | Call_register_push_callback _ | Call_unregister_push_callback _
  | Call_register_push_batch_callback _ | Call_unregister_push_batch_callback _ => true
  | _ => false
  end.

(** The calls that hand events to callbacks, and the pool at work. *)
Definition is_push_call (c : mgr_call) : bool :=
  match c with
  | Call_push_event _ | Call_push_events_batch _ | Pool_runs => true
  | _ => false
  end.

(** No entry of the registry [l] is the callback [cb]. *)
Definition unregistered (cb : Callback) (l : list Callback) : bool :=
  forallb (fun c => negb (Nat.eqb (cb_id c) (cb_id cb))) l.

Definition is_stop_call (c : mgr_call) : bool :=
  match c with Call_stop => true | _ => false end.

(** The world with [item] at the tail of the queue. *)
Definition enqueued (item : Event) (w : World) : World :=
  set_mgr (set_events (Queue.do_put item)) w.

(** The world once [add_event] has put [item] and counted it. *)
Definition added (item : Event) (w : World) : World :=
  set_mgr (fun m => set_queued (Z.add 1) (set_received (Z.add 1) m)) (enqueued item w).

(** The world once [add_event] has put and counted each of [items], in order. *)
Definition added_all (items : list Event) (w : World) : World :=
  foldl (fun w item => added item w) w items.

(** The world with [a] added to the log and with the first entry of what the
    other threads do used up. *)
Definition warned (a : action) (w : World) : World :=
  mkWorld (mgr w) (tail (env w)) (trace w ++ [a]).

(** The [event_id]s stored in a table, in the order of the rows. *)
Definition stored_event_ids (table : list Sink.row) : list Z :=
  Sink.col_event_id <$> table.

(** The table after a series of [_bulk_insert]s, each with its clock reading,
    on the table as [_init_database] leaves it. *)
Definition after_inserts (batches : list (Z * list Event)) : list Sink.row :=
  foldl (fun table b => Sink._bulk_insert (fst b) (snd b) table) Sink._init_database batches.

(** The events that a run of [produce_events] makes: one for each id from 0
    up to [num_events - 1], in this order. *)
Definition generated (rnd : Z -> Producer.draws) (num_events : Z) : list Event :=
  (fun i => Producer._generate_event (rnd i) i) <$> seqZ 0 num_events.

(** [self.start_time = time.perf_counter()] and [self.end_time = ...] *)
Definition started (t0 : Z) (st : Producer.state) : Producer.state :=
  let p := snd st in
  (fst st, Producer.mk (Producer.num_events p) (Producer.batch_size p)
             (Producer.push_mode p) (Producer.events_produced p)
             (Some t0) (Producer.end_time p)).

Definition ended (t1 : Z) (st : Producer.state) : Producer.state :=
  let p := snd st in
  (fst st, Producer.mk (Producer.num_events p) (Producer.batch_size p)
             (Producer.push_mode p) (Producer.events_produced p)
             (Producer.start_time p) (Some t1)).

(** The settings of the producer are as before. *)
Definition same_producer (p p' : Producer.t) : Prop :=
  Producer.num_events p' = Producer.num_events p /\
  Producer.batch_size p' = Producer.batch_size p /\
  Producer.push_mode p' = Producer.push_mode p.

(** From [st] to [st'] the producer has enqueued [evs], and nothing else. *)
Definition sent_pull (evs : list Event) (st st' : Producer.state) : Prop :=
  in_queue (fst st') = in_queue (fst st) ++ evs /\
  received (fst st') = received (fst st) + Z.of_nat (length evs) /\
  queued (fst st') = queued (fst st) + Z.of_nat (length evs) /\
  pushed (fst st') = pushed (fst st) /\
  capacity (fst st') = capacity (fst st) /\
  trace (fst st') = trace (fst st) /\
  env (fst st') = env (fst st) /\
  produced st' = produced st + Z.of_nat (length evs) /\
  same_producer (snd st) (snd st').

(** From [st] to [st'] the producer has pushed [evs] to the per-event
    callbacks, and nothing else. *)
Definition sent_push (evs : list Event) (st st' : Producer.state) : Prop :=
  trace (fst st') = trace (fst st) ++ flat_map call_trace (due_each (fst st) evs) /\
  pushed (fst st') = pushed (fst st) + Z.of_nat (length evs) /\
  received (fst st') = received (fst st) + Z.of_nat (length evs) /\
  same_queue (fst st) (fst st') /\
  same_setup (fst st) (fst st') /\
  produced st' = produced st + Z.of_nat (length evs) /\
  same_producer (snd st) (snd st').

(** The manager pushes on the calling thread and has only per-event callbacks. *)
Definition plain_push (st : Producer.state) : Prop :=
  has_executor (fst st) = false /\
  _push_batch_callbacks (mgr (fst st)) = [] /\
  Producer.push_mode (snd st) = true.

(** Every call that pushing [evs] to the callbacks [cbs] makes returns, or
    raises an instance of [Exception]. *)
Definition harmless (cbs : list Callback) (evs : list Event) : Prop :=
  forallb tame (flat_map (fun ev => map (fun cb => (cb, PEvent ev)) cbs) evs) = true.

Definition ready (cbs : list Callback) (st : Producer.state) : Prop :=
  plain_push st /\ _push_event_callbacks (mgr (fst st)) = cbs.

(** The manager has a queue without bound and the producer enqueues. *)
Definition plain_pull (st : Producer.state) : Prop :=
  capacity (fst st) <= 0 /\ Producer.push_mode (snd st) = false.

(** The events with which the callback [id] was called, in the order of the calls. *)
Definition events_called (id : nat) (tr : list action) : list Event :=
  omap (fun a =>
          match a with
          | Invoke i (PEvent e) => if Nat.eqb i id then Some e else None
          | _ => None
          end) tr.

(** ** main.py: the PUSH run *)

(** The numbers that [run_push_model] returns; the two durations, which are
    differences of clock readings, are left out. *)
Record results : Type := mkResults {
  res_produced : Z;
  res_processed : Z;
  res_db_stored : Z
}.

(** [run_push_model(num_events, batch_size)].  The consumer registers its
    bound method [on_event_received]; the manager has no pool, so the calls
    it makes to that callback, which are on record in the trace, are the
    calls the consumer receives, in order.  [t0] and [t1] are the clock
    readings of the producer, [now] the one of the consumer during the
    deliveries and [now'] the one at [finish]. *)
Definition run_push_model (rnd : Z -> Producer.draws) (t0 t1 now now' : Z)
    (num_events batch_size : Z) : outcome results :=
  let manager := fresh 0 None [] in
  let consumer := ConsumerPush.__init__ batch_size in
  let manager := fst (ConsumerPush.register 0 manager) in
  let producer := Producer.__init__ num_events batch_size true in
  match Producer.produce_events rnd t0 t1 (manager, producer) with
  | ((manager, producer), Return _) =>
      let consumer :=
        ConsumerPush.feed now (events_called 0 (trace manager)) consumer in
      let consumer := ConsumerPush.finish now' consumer in
      Return (mkResults (Producer.events_produced producer)
                (ConsumerPush.events_processed consumer)
                (ConsumerPush.get_database_stats consumer))
  | (_, Raise e) => Raise e
  | (_, Hang) => Hang
  end.

(** ** The outcome monad *)

Section PyLaws.
Context {St : Type}.

Lemma bind_Return {A B} (m : Py St A) (k : A -> Py St B) s s' a :
  m s = (s', Return a) -> bind m k s = k a s'.
Proof. unfold bind. intros ->. reflexivity. Qed.

Lemma bind_Raise {A B} (m : Py St A) (k : A -> Py St B) s s' e :
  m s = (s', Raise e) -> bind m k s = (s', Raise e).
Proof. unfold bind. intros ->. reflexivity. Qed.

Lemma bind_Hang {A B} (m : Py St A) (k : A -> Py St B) s s' :
  m s = (s', Hang) -> bind m k s = (s', Hang).
Proof. unfold bind. intros ->. reflexivity. Qed.

Lemma for_each_app {A} (xs ys : list A) (body : A -> Py St unit) s :
  for_each (xs ++ ys) body s = (for_each xs body >> for_each ys body) s.
Proof.
  revert s. induction xs as [|x xs IH]; intros s; simpl.
  - reflexivity.
  - unfold bind in *. destruct (body x s) as [s1 [[]|e|]]; simpl; auto.
Qed.
End PyLaws.

(** ** Counters along a call *)

Lemma grows_refl w : grows 0 w w.
Proof. unfold grows. lia. Qed.

Lemma grows_trans d1 d2 w1 w2 w3 :
  grows d1 w1 w2 -> grows d2 w2 w3 -> grows (d1 + d2) w1 w3.
Proof. unfold grows. intros (?&?&?&?) (?&?&?&?). repeat split; try lia; auto. Qed.

Lemma grows_weaken d d' w w' : d <= d' -> grows d w w' -> grows d' w w'.
Proof. unfold grows. intros ? (?&?&?&?). repeat split; try lia; auto. Qed.

Lemma keeps_ret {A} (a : A) : keeps 0 (ret a).
Proof. intros w. apply grows_refl. Qed.

Lemma keeps_raise {A} e : keeps 0 (@raise World A e).
Proof. intros w. apply grows_refl. Qed.

Lemma keeps_hang {A} : keeps 0 (@hang World A).
Proof. intros w. apply grows_refl. Qed.

Lemma keeps_gets {A} (f : World -> A) : keeps 0 (gets f).
Proof. intros w. apply grows_refl. Qed.

Lemma keeps_bind {A B} d1 d2 (m : Py World A) (k : A -> Py World B) :
  0 <= d2 -> keeps d1 m -> (forall a, keeps d2 (k a)) -> keeps (d1 + d2) (bind m k).
Proof.
  intros Hd Hm Hk w. unfold bind. specialize (Hm w).
  destruct (m w) as [w1 [a|e|]]; simpl in *.
  - eapply grows_trans; [exact Hm | apply Hk].
  - eapply grows_weaken; [|exact Hm]. lia.
  - eapply grows_weaken; [|exact Hm]. lia.
Qed.

Lemma keeps_bind0 {A B} (m : Py World A) (k : A -> Py World B) :
  keeps 0 m -> (forall a, keeps 0 (k a)) -> keeps 0 (bind m k).
Proof. intros. change 0 with (0 + 0). apply keeps_bind; auto; lia. Qed.

Lemma keeps_try_except {A} d1 d2 (body : Py World A) catches handler :
  0 <= d2 -> keeps d1 body -> (forall e, keeps d2 (handler e)) ->
  keeps (d1 + d2) (try_except body catches handler).
Proof.
  intros Hd Hb Hh w. unfold try_except. specialize (Hb w).
  destruct (body w) as [w1 [a|e|]]; simpl in *.
  - eapply grows_weaken; [|exact Hb]. lia.
  - destruct (catches e).
    + eapply grows_trans; [exact Hb | apply Hh].
    + eapply grows_weaken; [|exact Hb]. lia.
  - eapply grows_weaken; [|exact Hb]. lia.
Qed.

Lemma keeps_try_except0 {A} (body : Py World A) catches handler :
  keeps 0 body -> (forall e, keeps 0 (handler e)) ->
  keeps 0 (try_except body catches handler).
Proof. intros. change 0 with (0 + 0). apply keeps_try_except; auto; lia. Qed.

Lemma keeps_for_each {A} d (xs : list A) (body : A -> Py World unit) :
  0 <= d -> (forall x, keeps d (body x)) ->
  keeps (Z.of_nat (length xs) * d) (for_each xs body).
Proof.
  intros Hd Hb. induction xs as [|x xs IH].
  - simpl. apply keeps_ret.
  - cbn [for_each length].
    replace (Z.of_nat (S (length xs)) * d) with (d + Z.of_nat (length xs) * d) by lia.
    apply keeps_bind; auto. lia.
Qed.

Lemma keeps_for_each0 {A} (xs : list A) (body : A -> Py World unit) :
  (forall x, keeps 0 (body x)) -> keeps 0 (for_each xs body).
Proof.
  intros Hb. replace 0 with (Z.of_nat (length xs) * 0) by lia.
  apply keeps_for_each; auto. lia.
Qed.

Lemma keeps_modify d (f : World -> World) :
  (forall w, grows d w (f w)) -> keeps d (modify f).
Proof. intros H w. apply H. Qed.

Lemma keeps_log a : keeps 0 (log a).
Proof. intros w. unfold grows, received, pushed, queued. simpl. lia. Qed.

Ltac counters := unfold grows, received, pushed, queued; simpl; try lia.

Ltac keeps_step :=
  first
    [ apply keeps_ret | apply keeps_raise | apply keeps_hang | apply keeps_gets
    | apply keeps_log
    | apply keeps_bind0; [|intros ?]
    | apply keeps_try_except0; [|intros ?]
    | apply keeps_for_each0; intros ?
    | apply keeps_modify; intros ?; counters ].

Lemma keeps_await_not_full limited : keeps 0 (await_not_full limited).
Proof.
  intros w. unfold await_not_full.
  destruct (wait_not_full limited (env w) (events (mgr w))) as [[evs q] r].
  counters.
Qed.

Lemma keeps_events_put item block timeout : keeps 0 (events_put item block timeout).
Proof.
  unfold events_put. keeps_step; [keeps_step|]. keeps_step.
  - destruct (0 <? Queue.maxsize a); [|keeps_step].
    destruct (negb block).
    + destruct (Queue.maxsize a <=? Queue.qsize a); keeps_step.
    + destruct timeout as [t|]; [|apply keeps_await_not_full].
      destruct (t <? 0); [keeps_step|].
      destruct (Queue.maxsize a <=? Queue.qsize a); [|keeps_step].
      destruct (t =? 0); [keeps_step | apply keeps_await_not_full].
  - keeps_step.
Qed.

Lemma keeps_await_not_empty limited : keeps 0 (await_not_empty limited).
Proof.
  intros w. unfold await_not_empty.
  destruct (Queue.empty (events (mgr w))); [|apply grows_refl].
  destruct (env w) as [|[e| |] evs]; counters.
Qed.

Lemma keeps_events_take : keeps 0 events_take.
Proof.
  intros w. unfold events_take.
  destruct (Queue.items (events (mgr w))); counters.
Qed.

Lemma keeps_events_get block timeout : keeps 0 (events_get block timeout).
Proof.
  unfold events_get. keeps_step; [keeps_step|]. keeps_step.
  - destruct (negb block).
    + destruct (Queue.empty a); keeps_step.
    + destruct timeout as [t|]; [|apply keeps_await_not_empty].
      destruct (t <? 0); [keeps_step|].
      destruct (Queue.empty a); [|keeps_step].
      destruct (t =? 0); [keeps_step | apply keeps_await_not_empty].
  - apply keeps_events_take.
Qed.

Lemma keeps_events_task_done : keeps 0 events_task_done.
Proof.
  unfold events_task_done. keeps_step; [keeps_step|].
  destruct (Queue.unfinished_tasks a - 1 <? 0); keeps_step.
Qed.

Lemma keeps_bump_received_queued : keeps 0 bump_received_queued.
Proof. unfold bump_received_queued. keeps_step. Qed.

Lemma keeps_add_event event block timeout : keeps 0 (add_event event block timeout).
Proof.
  unfold add_event. keeps_step.
  - keeps_step; [|apply keeps_bump_received_queued].
    destruct block; apply keeps_events_put.
  - keeps_step; [keeps_step|]. keeps_step; [apply keeps_events_put|].
    apply keeps_bump_received_queued.
Qed.

Lemma keeps_add_events_batch events block : keeps 0 (add_events_batch events block).
Proof.
  unfold add_events_batch. keeps_step. keeps_step; [apply keeps_add_event|].
  keeps_step; [keeps_step | apply keeps_add_event].
Qed.

Lemma keeps_get_event timeout : keeps 0 (get_event timeout).
Proof.
  unfold get_event. keeps_step; [|keeps_step].
  keeps_step; [apply keeps_events_get | keeps_step].
Qed.

Lemma keeps_drain_nowait k batch : keeps 0 (drain_nowait k batch).
Proof.
  revert batch. induction k as [|k IH]; intros batch; [apply keeps_ret|].
  intros w. simpl. pose proof (keeps_events_get false None w) as H.
  unfold events_get_nowait.
  destruct (events_get false None w) as [w1 [ev|e|]]; simpl in H.
  - change 0 with (0 + 0). eapply grows_trans; [exact H | apply IH].
  - destruct e; exact H.
  - exact H.
Qed.

Lemma keeps_get_events_batch batch_size timeout :
  keeps 0 (get_events_batch batch_size timeout).
Proof.
  unfold get_events_batch. keeps_step; [apply keeps_get_event|].
  destruct a; [apply keeps_drain_nowait | keeps_step].
Qed.

Lemma keeps_task_done n : keeps (Z.max 0 n) (task_done n).
Proof.
  unfold task_done, for_range.
  replace (Z.max 0 n) with (Z.of_nat (length (replicate (Z.to_nat n) tt)) * 1)
    by (rewrite length_replicate; lia).
  apply keeps_for_each; [lia|]. intros _.
  change 1 with (1 + 0). apply keeps_try_except; [lia| |intros ?; apply keeps_log].
  change 1 with (0 + 1). apply keeps_bind; [lia|apply keeps_events_task_done|].
  intros _. apply keeps_modify. intros w. counters.
  destruct (0 <? _total_events_queued (mgr w)) eqn:E; simpl; lia.
Qed.

Lemma keeps_join : keeps 0 join.
Proof.
  unfold join, events_join. keeps_step; [|keeps_step].
  keeps_step; [keeps_step|].
  destruct (Queue.unfinished_tasks a =? 0); keeps_step.
Qed.

Lemma keeps_call cb p : keeps 0 (call cb p).
Proof.
  unfold call. keeps_step; [keeps_step|].
  destruct (cb_body cb p); keeps_step.
Qed.

Lemma keeps__safe_call cb p : keeps 0 (_safe_call cb p).
Proof. unfold _safe_call. keeps_step; [apply keeps_call | keeps_step]. Qed.

Lemma keeps_executor_submit cb p : keeps 0 (executor_submit cb p).
Proof.
  intros w. unfold executor_submit.
  destruct (_push_executor (mgr w)) as [ex|]; [|apply grows_refl].
  destruct (ex_shutdown ex); counters.
Qed.

Lemma keeps_executor_run : keeps 0 executor_run.
Proof.
  unfold executor_run. keeps_step; [keeps_step|].
  keeps_step; [keeps_step|]. keeps_step.
  keeps_step; [apply keeps__safe_call | keeps_step].
Qed.

Lemma keeps_dispatch label callbacks p : keeps 0 (dispatch label callbacks p).
Proof.
  unfold dispatch. keeps_step; [keeps_step|].
  destruct a; keeps_step.
  - keeps_step; [apply keeps_executor_submit | keeps_step].
  - apply keeps__safe_call.
Qed.

Lemma keeps_push_event event : keeps 0 (push_event event).
Proof.
  unfold push_event. keeps_step; [keeps_step|]. keeps_step; [keeps_step|].
  keeps_step.
  - destruct (nonempty a0); [apply keeps_dispatch | keeps_step].
  - keeps_step; [|keeps_step].
    destruct (nonempty a); [apply keeps_dispatch | keeps_step].
Qed.

Lemma keeps_push_events_batch events : keeps 0 (push_events_batch events).
Proof.
  unfold push_events_batch. destruct (negb (nonempty events)); [keeps_step|].
  keeps_step; [keeps_step|]. keeps_step; [keeps_step|].
  keeps_step.
  - destruct (nonempty a); [apply keeps_dispatch | keeps_step].
  - keeps_step; [|keeps_step].
    destruct (nonempty a0); [|keeps_step].
    keeps_step. apply keeps_dispatch.
Qed.

(** Every call on the manager, whatever the state: no counter goes down but
    [queued], and that by no more than what [task_done] acknowledges. *)
Lemma after_grows c w : grows (acknowledged c) w (after c w).
Proof.
  destruct c; cbn [after acknowledged];
    try (match goal with |- grows 0 _ (fst (?m _)) =>
           first [ apply keeps_add_event | apply keeps_add_events_batch
                 | apply keeps_get_event | apply keeps_get_events_batch
                 | apply keeps_join | apply keeps_push_event
                 | apply keeps_push_events_batch | apply keeps_executor_run ]
         end);
    try apply keeps_task_done; counters.
Qed.

Lemma run_snoc calls c w : run (calls ++ [c]) w = after c (run calls w).
Proof. unfold run. rewrite foldl_app. reflexivity. Qed.

Lemma run_queued_nonneg calls w : 0 <= queued w -> 0 <= queued (run calls w).
Proof.
  induction calls as [|c calls IH] using rev_ind; intros H; [exact H|].
  rewrite run_snoc. destruct (after_grows c (run calls w)) as (_&_&_&Hq). auto.
Qed.

(** ** Dispatch to the callbacks *)

Lemma add_trace_nil w : add_trace [] w = w.
Proof. destruct w. unfold add_trace. simpl. rewrite app_nil_r. reflexivity. Qed.

Lemma add_trace_add_trace a b w : add_trace b (add_trace a w) = add_trace (a ++ b) w.
Proof. unfold add_trace. simpl. rewrite app_assoc. reflexivity. Qed.

Lemma _safe_call_spec cb p w :
  _safe_call cb p w =
  (add_trace (call_trace (cb, p)) w,
   match cb_body cb p with
   | Some e => if is_Exception e then Return tt else Raise e
   | None => Return tt
   end).
Proof.
  unfold _safe_call, try_except, call, bind, log, modify, raise, ret, call_trace, add_trace.
  simpl. destruct (cb_body cb p) as [e|]; simpl; [|reflexivity].
  destruct (is_Exception e); simpl; [|reflexivity].
  rewrite <- app_assoc. reflexivity.
Qed.

Lemma _safe_call_tame cb p w :
  tame (cb, p) = true ->
  _safe_call cb p w = (add_trace (call_trace (cb, p)) w, Return tt).
Proof.
  intros H. rewrite _safe_call_spec. f_equal. unfold tame in H. simpl in H.
  destruct (cb_body cb p); [rewrite H|]; reflexivity.
Qed.

Lemma for_each__safe_call callbacks p w :
  forallb tame (map (fun cb => (cb, p)) callbacks) = true ->
  for_each callbacks (fun cb => _safe_call cb p) w =
  (add_trace (flat_map call_trace (map (fun cb => (cb, p)) callbacks)) w, Return tt).
Proof.
  revert w. induction callbacks as [|cb cbs IH]; intros w H.
  - simpl. rewrite add_trace_nil. reflexivity.
  - simpl in H. apply andb_prop in H as [H1 H2].
    cbn [for_each map flat_map].
    erewrite bind_Return by (apply _safe_call_tame; exact H1).
    rewrite IH by exact H2. rewrite add_trace_add_trace. reflexivity.
Qed.

Lemma has_executor_add_trace d w : has_executor (add_trace d w) = has_executor w.
Proof. reflexivity. Qed.

Lemma has_executor_submit_all items w : has_executor (submit_all items w) = has_executor w.
Proof. unfold has_executor, submit_all. simpl. destruct (_push_executor (mgr w)); reflexivity. Qed.

Lemma accepting_submit_all items w : accepting (submit_all items w) = accepting w.
Proof. unfold accepting, submit_all. simpl. destruct (_push_executor (mgr w)); reflexivity. Qed.

Lemma submit_all_nil w : submit_all [] w = w.
Proof.
  destruct w as [m ev tr]. unfold submit_all. simpl. rewrite app_nil_r.
  f_equal. destruct m as [q ec bc ex r p qd st]. unfold set_executor. simpl.
  f_equal. destruct ex as [[sd wk]|]; [|reflexivity]. simpl. rewrite app_nil_r. reflexivity.
Qed.

Lemma submit_all_submit_all a b w :
  submit_all b (submit_all a w) = submit_all (a ++ b) w.
Proof.
  unfold submit_all. simpl. rewrite map_app, app_assoc. f_equal.
  unfold set_executor. simpl. f_equal.
  destruct (_push_executor (mgr w)) as [ex|]; [|reflexivity].
  simpl. rewrite app_assoc. reflexivity.
Qed.

Lemma executor_submit_accepting cb p w :
  has_executor w = true -> accepting w = true ->
  executor_submit cb p w = (submit_all [(cb, p)] w, Return tt).
Proof.
  unfold has_executor, accepting, executor_submit, submit_all, set_executor.
  destruct (_push_executor (mgr w)) as [[sd wk]|]; [|discriminate].
  simpl. intros _ H. destruct sd; [discriminate|]. reflexivity.
Qed.

Lemma dispatch_sync label callbacks p w :
  has_executor w = false ->
  forallb tame (map (fun cb => (cb, p)) callbacks) = true ->
  dispatch label callbacks p w =
  (add_trace (flat_map call_trace (map (fun cb => (cb, p)) callbacks)) w, Return tt).
Proof.
  intros Hx Ht. unfold dispatch, bind, gets. rewrite Hx.
  apply for_each__safe_call. exact Ht.
Qed.

Lemma dispatch_async label callbacks p w :
  has_executor w = true -> accepting w = true ->
  dispatch label callbacks p w =
  (submit_all (map (fun cb => (cb, p)) callbacks) w, Return tt).
Proof.
  intros Hx Ha. unfold dispatch, bind, gets. rewrite Hx.
  revert w Hx Ha. induction callbacks as [|cb cbs IH]; intros w Hx Ha.
  - simpl. rewrite submit_all_nil. reflexivity.
  - cbn [for_each map]. unfold bind at 1, try_except.
    rewrite executor_submit_accepting by assumption.
    rewrite IH by (rewrite ?has_executor_submit_all, ?accepting_submit_all; assumption).
    rewrite submit_all_submit_all. reflexivity.
Qed.

Lemma submit_guarded label cb p w :
  has_executor w = true ->
  exists w',
    try_except (executor_submit cb p) is_Exception
      (fun _ => log (LogException label)) w = (w', Return tt)
    /\ has_executor w' = true
    /\ _push_event_callbacks (mgr w') = _push_event_callbacks (mgr w)
    /\ _push_batch_callbacks (mgr w') = _push_batch_callbacks (mgr w).
Proof.
  unfold has_executor, try_except, executor_submit. intros Hx.
  destruct (_push_executor (mgr w)) as [ex|] eqn:Ex; [|discriminate].
  destruct (ex_shutdown ex); simpl; eexists; (split; [reflexivity|]); simpl.
  - rewrite Ex. auto.
  - auto.
Qed.

(** With a pool, [dispatch] returns whatever the pool and the callbacks do. *)
Lemma dispatch_async_returns label callbacks p w :
  has_executor w = true ->
  exists w', dispatch label callbacks p w = (w', Return tt) /\ has_executor w' = true
    /\ _push_event_callbacks (mgr w') = _push_event_callbacks (mgr w)
    /\ _push_batch_callbacks (mgr w') = _push_batch_callbacks (mgr w).
Proof.
  intros Hx. unfold dispatch, bind at 1, gets. rewrite Hx.
  revert w Hx. induction callbacks as [|cb cbs IH]; intros w Hx.
  - simpl. eexists. split; [reflexivity|]. auto.
  - cbn [for_each].
    destruct (submit_guarded label cb p w Hx) as (w1&E&H1&H2&H3).
    erewrite bind_Return by exact E.
    destruct (IH w1 H1) as (w'&->&?&?&?).
    eexists. split; [reflexivity|]. repeat split; congruence.
Qed.

Lemma deliveries_call_trace items :
  deliveries (flat_map call_trace items) = map (handed false) items.
Proof.
  unfold deliveries. induction items as [|[cb p] items IH]; [reflexivity|].
  cbn [flat_map map]. rewrite filter_app, IH. unfold call_trace, handed. simpl.
  destruct (cb_body cb p) as [e|]; [destruct (is_Exception e)|]; reflexivity.
Qed.

Lemma deliveries_handed async items :
  deliveries (map (handed async) items) = map (handed async) items.
Proof.
  unfold deliveries. induction items as [|it items IH]; [reflexivity|].
  cbn [map]. rewrite filter_cons, IH. destruct async; reflexivity.
Qed.

Lemma guarded_dispatch_sync label callbacks p w :
  has_executor w = false ->
  forallb tame (map (fun cb => (cb, p)) callbacks) = true ->
  (if nonempty callbacks then dispatch label callbacks p else ret tt) w =
  (add_trace (flat_map call_trace (map (fun cb => (cb, p)) callbacks)) w, Return tt).
Proof.
  intros Hx Ht. destruct callbacks as [|cb cbs].
  - simpl. rewrite add_trace_nil. reflexivity.
  - cbn [nonempty]. apply dispatch_sync; assumption.
Qed.

Lemma guarded_dispatch_async label callbacks p w :
  has_executor w = true -> accepting w = true ->
  (if nonempty callbacks then dispatch label callbacks p else ret tt) w =
  (submit_all (map (fun cb => (cb, p)) callbacks) w, Return tt).
Proof.
  intros Hx Ha. destruct callbacks as [|cb cbs].
  - simpl. rewrite submit_all_nil. reflexivity.
  - cbn [nonempty]. apply dispatch_async; assumption.
Qed.

Lemma for_each_dispatch_sync label callbacks events w :
  has_executor w = false ->
  forallb tame
    (flat_map (fun ev => map (fun cb => (cb, PEvent ev)) callbacks) events) = true ->
  for_each events (fun ev => dispatch label callbacks (PEvent ev)) w =
  (add_trace
     (flat_map call_trace
        (flat_map (fun ev => map (fun cb => (cb, PEvent ev)) callbacks) events)) w,
   Return tt).
Proof.
  revert w. induction events as [|ev evs IH]; intros w Hx Ht.
  - simpl. rewrite add_trace_nil. reflexivity.
  - cbn [for_each flat_map] in *. rewrite forallb_app in Ht.
    apply andb_prop in Ht as [H1 H2].
    erewrite bind_Return by (apply dispatch_sync; assumption).
    rewrite IH by assumption.
    rewrite add_trace_add_trace, flat_map_app. reflexivity.
Qed.

Lemma for_each_dispatch_async label callbacks events w :
  has_executor w = true -> accepting w = true ->
  for_each events (fun ev => dispatch label callbacks (PEvent ev)) w =
  (submit_all
     (flat_map (fun ev => map (fun cb => (cb, PEvent ev)) callbacks) events) w,
   Return tt).
Proof.
  revert w. induction events as [|ev evs IH]; intros w Hx Ha.
  - simpl. rewrite submit_all_nil. reflexivity.
  - cbn [for_each flat_map].
    erewrite bind_Return by (apply dispatch_async; assumption).
    rewrite IH by (rewrite ?has_executor_submit_all, ?accepting_submit_all; assumption).
    rewrite submit_all_submit_all. reflexivity.
Qed.

Lemma flat_map_nil {A B} (l : list A) : flat_map (fun _ : A => @nil B) l = [].
Proof. induction l; simpl; auto. Qed.

Lemma bump_zero w : bump 0 w = w.
Proof. destruct w as [[] ? ?]. reflexivity. Qed.

(** Without a pool, and with callbacks that raise nothing but instances of
    [Exception], a push returns, having called every callback it owes. *)
Lemma perform_sync p w :
  has_executor w = false -> forallb tame (due w p) = true ->
  perform p w =
  (bump (credited p) (add_trace (flat_map call_trace (due w p)) w), Return tt).
Proof.
  intros Hx Ht. destruct p as [event|events]; cbn [perform due credited] in *.
  - unfold due_batch, due_each in *. cbn [flat_map] in *. rewrite app_nil_r in *.
    rewrite forallb_app in Ht. apply andb_prop in Ht as [H1 H2].
    unfold push_event. unfold bind at 1 2, gets.
    unfold _dispatch_batch_to_callbacks, _dispatch_to_callbacks.
    erewrite bind_Return by (apply guarded_dispatch_sync; assumption).
    erewrite bind_Return by (apply guarded_dispatch_sync; assumption).
    rewrite add_trace_add_trace, flat_map_app. reflexivity.
  - unfold push_events_batch. destruct events as [|ev evs].
    + simpl. rewrite add_trace_nil, bump_zero. reflexivity.
    + cbn [nonempty negb] in *. rewrite forallb_app in Ht.
      apply andb_prop in Ht as [H1 H2].
      unfold bind at 1 2, gets. unfold _dispatch_batch_to_callbacks.
      erewrite bind_Return by (apply guarded_dispatch_sync; assumption).
      assert (E : (if nonempty (_push_event_callbacks (mgr w))
                   then for_each (ev :: evs)
                          (fun ev0 => _dispatch_to_callbacks (_push_event_callbacks (mgr w)) ev0)
                   else ret tt)
                  (add_trace (flat_map call_trace (due_batch w (ev :: evs))) w) =
                  (add_trace (flat_map call_trace (due_each w (ev :: evs)))
                     (add_trace (flat_map call_trace (due_batch w (ev :: evs))) w),
                   Return tt)).
      { unfold due_each in *. destruct (_push_event_callbacks (mgr w)) as [|cb cbs] eqn:Ec.
        - cbn [nonempty map]. rewrite (flat_map_nil (ev :: evs)). cbn [flat_map].
          rewrite add_trace_nil. reflexivity.
        - cbn [nonempty]. apply for_each_dispatch_sync; assumption. }
      erewrite bind_Return by exact E.
      rewrite add_trace_add_trace, flat_map_app. reflexivity.
Qed.

(** With a pool that takes submissions, a push returns, having submitted a
    call of every callback it owes. *)
Lemma perform_async p w :
  has_executor w = true -> accepting w = true ->
  perform p w = (bump (credited p) (submit_all (due w p) w), Return tt).
Proof.
  intros Hx Ha. destruct p as [event|events]; cbn [perform due credited] in *.
  - unfold due_batch, due_each in *. cbn [flat_map] in *. rewrite app_nil_r in *.
    unfold push_event. unfold bind at 1 2, gets.
    unfold _dispatch_batch_to_callbacks, _dispatch_to_callbacks.
    erewrite bind_Return by (apply guarded_dispatch_async; assumption).
    erewrite bind_Return
      by (apply guarded_dispatch_async;
          rewrite ?has_executor_submit_all, ?accepting_submit_all; assumption).
    rewrite submit_all_submit_all. reflexivity.
  - unfold push_events_batch. destruct events as [|ev evs].
    + simpl. rewrite submit_all_nil, bump_zero. reflexivity.
    + cbn [nonempty negb] in *.
      unfold bind at 1 2, gets. unfold _dispatch_batch_to_callbacks.
      erewrite bind_Return by (apply guarded_dispatch_async; assumption).
      assert (E : (if nonempty (_push_event_callbacks (mgr w))
                   then for_each (ev :: evs)
                          (fun ev0 => _dispatch_to_callbacks (_push_event_callbacks (mgr w)) ev0)
                   else ret tt)
                  (submit_all (due_batch w (ev :: evs)) w) =
                  (submit_all (due_each w (ev :: evs))
                     (submit_all (due_batch w (ev :: evs)) w),
                   Return tt)).
      { unfold due_each in *. destruct (_push_event_callbacks (mgr w)) as [|cb cbs] eqn:Ec.
        - cbn [nonempty map]. rewrite (flat_map_nil (ev :: evs)).
          rewrite submit_all_nil. reflexivity.
        - cbn [nonempty]. apply for_each_dispatch_async;
            rewrite ?has_executor_submit_all, ?accepting_submit_all; assumption. }
      erewrite bind_Return by exact E.
      rewrite submit_all_submit_all. reflexivity.
Qed.

Lemma executor_run_spec w :
  executor_run w =
  (add_trace (flat_map call_trace (pool_work w)) (pool_emptied w), Return tt).
Proof.
  unfold executor_run. unfold bind at 1, gets. fold (pool_work w).
  unfold bind at 1, modify. fold (pool_emptied w).
  generalize (pool_emptied w) as w0. generalize (pool_work w) as work.
  clear w. induction work as [|[cb p] work IH]; intros w0.
  - simpl. rewrite add_trace_nil. reflexivity.
  - cbn [for_each flat_map].
    assert (E : try_except (_safe_call cb p) (fun _ => true) (fun _ => ret tt) w0
                = (add_trace (call_trace (cb, p)) w0, Return tt)).
    { unfold try_except. rewrite _safe_call_spec.
      destruct (cb_body cb p) as [e|]; [destruct (is_Exception e)|]; reflexivity. }
    cbn [fst snd]. erewrite bind_Return by exact E.
    rewrite IH, add_trace_add_trace. reflexivity.
Qed.

Lemma guarded_dispatch_async_returns label callbacks p w :
  has_executor w = true ->
  exists w',
    (if nonempty callbacks then dispatch label callbacks p else ret tt) w = (w', Return tt)
    /\ has_executor w' = true.
Proof.
  intros Hx. destruct (nonempty callbacks).
  - destruct (dispatch_async_returns label callbacks p w Hx) as (w'&E&H&_). eauto.
  - eexists. split; [reflexivity | exact Hx].
Qed.

Lemma for_each_dispatch_async_returns label callbacks events w :
  has_executor w = true ->
  exists w',
    for_each events (fun ev => dispatch label callbacks (PEvent ev)) w = (w', Return tt)
    /\ has_executor w' = true.
Proof.
  revert w. induction events as [|ev evs IH]; intros w Hx.
  - eexists. split; [reflexivity | exact Hx].
  - cbn [for_each].
    destruct (dispatch_async_returns label callbacks (PEvent ev) w Hx) as (w1&E&H1&_).
    erewrite bind_Return by exact E. apply IH. exact H1.
Qed.

(** With a pool, a push returns, whatever the callbacks and the pool do. *)
Lemma perform_async_returns p w :
  has_executor w = true -> exists w', perform p w = (w', Return tt).
Proof.
  intros Hx. destruct p as [event|events]; cbn [perform].
  - unfold push_event. unfold bind at 1 2, gets.
    unfold _dispatch_batch_to_callbacks, _dispatch_to_callbacks.
    destruct (guarded_dispatch_async_returns
                "Failed to submit batch callback to executor"
                (_push_batch_callbacks (mgr w)) (PBatch [event]) w Hx) as (w1&E1&H1).
    erewrite bind_Return by exact E1.
    destruct (guarded_dispatch_async_returns
                "Failed to submit callback to executor"
                (_push_event_callbacks (mgr w)) (PEvent event) w1 H1) as (w2&E2&H2).
    erewrite bind_Return by exact E2.
    eexists. reflexivity.
  - unfold push_events_batch. destruct (negb (nonempty events)).
    + eexists. reflexivity.
    + unfold bind at 1 2, gets. unfold _dispatch_batch_to_callbacks.
      destruct (guarded_dispatch_async_returns
                  "Failed to submit batch callback to executor"
                  (_push_batch_callbacks (mgr w)) (PBatch events) w Hx) as (w1&E1&H1).
      erewrite bind_Return by exact E1.
      destruct (nonempty (_push_event_callbacks (mgr w))).
      * destruct (for_each_dispatch_async_returns
                    "Failed to submit callback to executor"
                    (_push_event_callbacks (mgr w)) events w1 H1) as (w2&E2&H2).
        unfold _dispatch_to_callbacks.
        erewrite bind_Return by exact E2. eexists. reflexivity.
      * eexists. reflexivity.
Qed.

(** ** Pushing *)

(** C1, as amended.  For every non-empty list of events, when the callbacks
    raise nothing but instances of [Exception] (no pool) or the pool takes
    submissions (pool), [push_events_batch] returns and hands the whole list,
    unchanged, once to each entry of the batch registry, and then each event of
    the list, one by one, to each entry of the per-event registry; with an
    empty batch registry the per-event deliveries are all there is. *)
Theorem push_events_batch_delivers events w :
  nonempty events = true ->
  orderly w (PushMany events) = true ->
  exists w' delta,
    push_events_batch events w = (w', Return tt) /\
    trace w' = trace w ++ delta /\
    deliveries delta =
      map (fun cb => handed (has_executor w) (cb, PBatch events))
        (_push_batch_callbacks (mgr w)) ++
      flat_map (fun ev =>
          map (fun cb => handed (has_executor w) (cb, PEvent ev))
            (_push_event_callbacks (mgr w)))
        events.
Proof.
  intros Hne Ho. unfold orderly in Ho.
  assert (Hdue : forall b,
    map (handed b) (due w (PushMany events)) =
    map (fun cb => handed b (cb, PBatch events)) (_push_batch_callbacks (mgr w)) ++
    flat_map (fun ev => map (fun cb => handed b (cb, PEvent ev))
                          (_push_event_callbacks (mgr w))) events).
  { intros b. cbn [due]. rewrite Hne. unfold due_batch, due_each.
    rewrite map_app, map_map. f_equal.
    generalize events as evs. clear.
    induction evs as [|ev evs IH]; [reflexivity|].
    cbn [flat_map]. rewrite map_app, map_map, IH. reflexivity. }
  destruct (has_executor w) eqn:Hx.
  - pose proof (perform_async (PushMany events) w Hx Ho) as E. cbn [perform] in E.
    eexists _, _. split; [exact E|]. split; [reflexivity|].
    rewrite deliveries_handed. apply Hdue.
  - pose proof (perform_sync (PushMany events) w Hx Ho) as E. cbn [perform] in E.
    eexists _, _. split; [exact E|]. split; [reflexivity|].
    rewrite deliveries_call_trace. apply Hdue.
Qed.

Lemma push_events_batch_delivers_witness :
  let w := run [Call_register_push_batch_callback (returning 1);
                Call_register_push_callback (raising 2 (UserError "boom"))]
             (fresh 0 None []) in
  let events := [sample 0 "T1"; sample 1 "T2"] in
  exists w' delta,
    push_events_batch events w = (w', Return tt) /\
    trace w' = trace w ++ delta /\
    deliveries delta =
      map (fun cb => handed (has_executor w) (cb, PBatch events))
        (_push_batch_callbacks (mgr w)) ++
      flat_map (fun ev =>
          map (fun cb => handed (has_executor w) (cb, PEvent ev))
            (_push_event_callbacks (mgr w)))
        events.
Proof.
  intros w events.
  apply (push_events_batch_delivers events w); reflexivity.
Defined.

(** C1 as stated fails on the empty list: a batch callback is registered,
    the empty list is pushed, and the callback is not called. *)
Lemma push_events_batch_empty_undelivered :
  let w := run [Call_register_push_batch_callback (returning 1)] (fresh 0 None []) in
  _push_batch_callbacks (mgr w) = [returning 1] /\
  push_events_batch [] w = (w, Return tt) /\
  deliveries (trace (fst (push_events_batch [] w))) = [].
Proof. repeat split. Qed.

(** C3, as amended.  For either push, when every exception that a callback
    raises on the pushing thread is an instance of [Exception], the push
    returns to its caller; without a pool every callback owed is called
    with its payload, in order, and each call that raised is followed by its
    log entry; with a pool the run of the pool returns as well, and, if the
    pool took the submissions, has called every callback owed. *)
Theorem callback_failures_contained p w :
  contained w p = true ->
  exists w',
    perform p w = (w', Return tt) /\
    (has_executor w = false ->
       trace w' = trace w ++ flat_map call_trace (due w p)) /\
    (has_executor w = true ->
       exists w'', executor_run w' = (w'', Return tt) /\
         (accepting w = true ->
            trace w'' = trace w' ++ flat_map call_trace (pool_work w ++ due w p))).
Proof.
  unfold contained. intros H. destruct (has_executor w) eqn:Hx.
  - destruct (accepting w) eqn:Ha.
    + rewrite (perform_async p w Hx Ha). eexists. split; [reflexivity|].
      split; [discriminate|]. intros _. rewrite executor_run_spec.
      eexists. split; [reflexivity|]. intros _. simpl. f_equal. f_equal.
      unfold pool_work, submit_all, bump, set_mgr. simpl.
      unfold has_executor in Hx. destruct (_push_executor (mgr w)); [reflexivity|discriminate].
    + destruct (perform_async_returns p w Hx) as (w'&E). exists w'.
      split; [exact E|]. split; [discriminate|]. intros _.
      rewrite executor_run_spec. eexists. split; [reflexivity|]. discriminate.
  - simpl in H. rewrite (perform_sync p w Hx H). eexists. split; [reflexivity|].
    split; [reflexivity | discriminate].
Qed.

Lemma callback_failures_contained_witness :
  let w := run [Call_register_push_callback (raising 1 (UserError "boom"));
                Call_register_push_callback (returning 2)]
             (fresh 0 None []) in
  let p := PushOne (sample 0 "T1") in
  exists w',
    perform p w = (w', Return tt) /\
    (has_executor w = false ->
       trace w' = trace w ++ flat_map call_trace (due w p)) /\
    (has_executor w = true ->
       exists w'', executor_run w' = (w'', Return tt) /\
         (accepting w = true ->
            trace w'' = trace w' ++ flat_map call_trace (pool_work w ++ due w p))).
Proof.
  intros w p. apply (callback_failures_contained p w). reflexivity.
Defined.

(** C3 as stated fails for an exception that is not an instance of
    [Exception]: the first callback raises [KeyboardInterrupt], the push
    raises it to its caller, and the second callback is never called. *)
Lemma callback_failure_escapes :
  let w := run [Call_register_push_callback (raising 1 KeyboardInterrupt);
                Call_register_push_callback (returning 2)]
             (fresh 0 None []) in
  snd (push_event (sample 0 "T1") w) = Raise KeyboardInterrupt /\
  trace (fst (push_event (sample 0 "T1") w)) = [Invoke 1 (PEvent (sample 0 "T1"))] /\
  received (fst (push_event (sample 0 "T1") w)) = received w.
Proof. repeat split. Qed.

(** C9.  With both registries empty, [push_event] returns, calls and submits
    nothing, and adds one to the received and to the pushed counter. *)
Theorem push_event_without_callbacks event w :
  _push_event_callbacks (mgr w) = [] ->
  _push_batch_callbacks (mgr w) = [] ->
  exists w',
    push_event event w = (w', Return tt) /\
    trace w' = trace w /\
    pool_work w' = pool_work w /\
    received w' = received w + 1 /\
    pushed w' = pushed w + 1 /\
    queued w' = queued w /\
    events (mgr w') = events (mgr w).
Proof.
  intros He Hb. unfold push_event, bind, gets, modify. rewrite He, Hb. simpl.
  eexists. split; [reflexivity|].
  unfold received, pushed, queued, pool_work. simpl. repeat split; lia.
Qed.

Lemma push_event_without_callbacks_witness :
  let w := fresh 0 None [] in
  exists w',
    push_event (sample 7 "T7") w = (w', Return tt) /\
    trace w' = trace w /\
    pool_work w' = pool_work w /\
    received w' = received w + 1 /\
    pushed w' = pushed w + 1 /\
    queued w' = queued w /\
    events (mgr w') = events (mgr w).
Proof.
  intros w. apply (push_event_without_callbacks (sample 7 "T7") w); reflexivity.
Defined.

(** ** The queued counter *)

(** C10.  After any sequence of calls on a manager just built ([add_event],
    [get_event], [task_done] and all the others), whatever the other threads
    do, [get_total_queued] returns a value that is not negative. *)
Theorem queued_never_negative calls max_queue_size workers others :
  exists q,
    snd (get_total_queued (run calls (fresh max_queue_size workers others))) = Return q /\
    0 <= q.
Proof.
  eexists. split; [reflexivity|].
  apply (run_queued_nonneg calls (fresh max_queue_size workers others)).
  unfold queued. simpl. lia.
Qed.

(** ** Taking from the queue *)

Lemma Queue_empty_items q : Queue.empty q = negb (nonempty (Queue.items q)).
Proof. unfold Queue.empty, Queue.qsize. destruct (Queue.items q); reflexivity. Qed.

Lemma taken_0 w : taken 0 w = w.
Proof. destruct w as [[[] ? ? ? ? ? ? ?] ? ?]. reflexivity. Qed.

Lemma events_get_nowait_cons w x rest :
  Queue.items (events (mgr w)) = x :: rest ->
  events_get_nowait w = (taken 1 w, Return x).
Proof.
  intros H. unfold events_get_nowait, events_get, bind, gets. simpl.
  rewrite Queue_empty_items, H. simpl. unfold events_take. rewrite H.
  unfold taken, set_mgr, set_events, Queue.without_head. rewrite H. reflexivity.
Qed.

Lemma events_get_nowait_nil w :
  Queue.items (events (mgr w)) = [] ->
  events_get_nowait w = (w, Raise QueueEmpty).
Proof.
  intros H. unfold events_get_nowait, events_get, bind, gets. simpl.
  rewrite Queue_empty_items, H. reflexivity.
Qed.

Lemma taken_taken j k w : taken k (taken j w) = taken (j + k) w.
Proof.
  unfold taken, set_mgr, set_events. simpl. rewrite drop_drop. reflexivity.
Qed.

Lemma taken_nil k w : Queue.items (events (mgr w)) = [] -> taken k w = w.
Proof.
  intros H. destruct w as [[[] ? ? ? ? ? ? ?] ? ?]. simpl in H. subst.
  unfold taken, set_mgr, set_events. simpl. rewrite drop_nil. reflexivity.
Qed.

(** The draining loop takes the [k] oldest items, or all if there are fewer. *)
Lemma drain_nowait_spec k batch w :
  drain_nowait k batch w =
  (taken k w, Return (batch ++ take k (Queue.items (events (mgr w))))).
Proof.
  revert batch w. induction k as [|k IH]; intros batch w.
  - simpl. rewrite taken_0, app_nil_r. reflexivity.
  - cbn [drain_nowait]. destruct (Queue.items (events (mgr w))) as [|x rest] eqn:E.
    + rewrite (events_get_nowait_nil w E), (taken_nil _ w E), app_nil_r. reflexivity.
    + rewrite (events_get_nowait_cons w x rest E), IH, taken_taken.
      replace (Queue.items (events (mgr (taken 1 w)))) with rest
        by (unfold taken; simpl; rewrite E; reflexivity).
      rewrite <- app_assoc. reflexivity.
Qed.

Lemma events_take_cons w x rest :
  Queue.items (events (mgr w)) = x :: rest ->
  events_take w = (taken 1 w, Return x).
Proof.
  intros H. unfold events_take. rewrite H.
  unfold taken, set_mgr, set_events, Queue.without_head. rewrite H. reflexivity.
Qed.

Lemma await_not_empty_nonempty limited w x rest :
  Queue.items (events (mgr w)) = x :: rest ->
  await_not_empty limited w = (w, Return tt).
Proof.
  intros H. unfold await_not_empty. rewrite Queue_empty_items, H. reflexivity.
Qed.

Lemma await_not_empty_empty limited w :
  Queue.items (events (mgr w)) = [] ->
  await_not_empty limited w =
  (fst (await_not_empty true w),
   match env w with
   | ProducerAdds _ :: _ => Return tt
   | _ => if limited then Raise QueueEmpty else Hang
   end).
Proof.
  intros H. unfold await_not_empty. rewrite Queue_empty_items, H. cbn [nonempty negb].
  destruct (env w) as [|[e| |] evs]; reflexivity.
Qed.

Lemma await_not_empty_arrived w e evs :
  Queue.items (events (mgr w)) = [] -> env w = ProducerAdds e :: evs ->
  Queue.items (events (mgr (fst (await_not_empty true w)))) = [e].
Proof.
  intros H He. unfold await_not_empty. rewrite Queue_empty_items, H, He. simpl.
  rewrite H. reflexivity.
Qed.

(** A waiting [get] with a timeout that is not negative: the oldest item if
    there is one, else what arrives during the wait, else nothing. *)
Lemma events_get_spec timeout w :
  (forall t, timeout = Some t -> 0 <= t) ->
  events_get true timeout w =
  match available timeout w with
  | x :: _ => (taken 1 (waited timeout w), Return x)
  | [] =>
      (waited timeout w,
       match timeout with Some _ => Raise QueueEmpty | None => Hang end)
  end.
Proof.
  intros Ht. unfold events_get, available, arrival, waited.
  unfold bind at 1. unfold gets. cbn [negb]. rewrite Queue_empty_items.
  destruct (Queue.items (events (mgr w))) as [|x rest] eqn:E; cbn [nonempty negb].
  - destruct timeout as [t|].
    + specialize (Ht t eq_refl). replace (t <? 0) with false by lia.
      destruct (Z.eqb_spec t 0) as [->|Hne].
      * reflexivity.
      * replace (match t with 0 => None | _ =>
                   match env w with ProducerAdds e :: _ => Some e | _ => None end end)
          with (match env w with ProducerAdds e :: _ => Some e | _ => None end)
          by (destruct t; congruence).
        replace (match t with 0 => w | _ => fst (await_not_empty true w) end)
          with (fst (await_not_empty true w)) by (destruct t; congruence).
        pose proof (await_not_empty_empty true w E) as Hw.
        destruct (env w) as [|[e| |] evs] eqn:Ee;
          try (erewrite bind_Raise by exact Hw; reflexivity).
        erewrite bind_Return by exact Hw.
        apply events_take_cons with (rest := []).
        eapply await_not_empty_arrived; eassumption.
    + pose proof (await_not_empty_empty false w E) as Hw.
      destruct (env w) as [|[e| |] evs] eqn:Ee;
        try (erewrite bind_Hang by exact Hw; reflexivity).
      erewrite bind_Return by exact Hw.
      apply events_take_cons with (rest := []).
      eapply await_not_empty_arrived; eassumption.
  - destruct timeout as [t|].
    + specialize (Ht t eq_refl). replace (t <? 0) with false by lia.
      erewrite bind_Return by reflexivity. eapply events_take_cons; eassumption.
    + erewrite bind_Return by (eapply await_not_empty_nonempty; eassumption).
      eapply events_take_cons; eassumption.
Qed.

Lemma get_event_spec timeout w :
  (forall t, timeout = Some t -> 0 <= t) ->
  get_event timeout w =
  match available timeout w with
  | x :: _ => (taken 1 (waited timeout w), Return (Some x))
  | [] =>
      (waited timeout w,
       match timeout with Some _ => Return None | None => Hang end)
  end.
Proof.
  intros Ht. unfold get_event, try_except, bind. rewrite (events_get_spec timeout w Ht).
  destruct (available timeout w); [destruct timeout|]; reflexivity.
Qed.

Lemma waited_items timeout w :
  available timeout w <> [] ->
  Queue.items (events (mgr (waited timeout w))) = available timeout w.
Proof.
  unfold available, waited, arrival.
  destruct (Queue.items (events (mgr w))) as [|x rest] eqn:E; [|intros _; exact E].
  destruct timeout as [[|t|t]|]; try congruence;
    destruct (env w) as [|[e| |] evs] eqn:Ee; try congruence; intros _;
    eapply await_not_empty_arrived; eassumption.
Qed.

(** C2, as amended.  For every [batch_size] of at least 1 and every timeout
    that is [None] or not negative: if the queue is empty and nothing arrives
    within the timeout, [get_events_batch] returns the empty list; otherwise
    it returns the first [batch_size] of the events available (all of them if
    there are fewer), oldest first, beginning with the event awaited; it
    leaves the others in the queue, and waits at most once. *)
Theorem get_events_batch_spec batch_size timeout w :
  1 <= batch_size ->
  (forall t, timeout = Some t -> 0 <= t) ->
  let r := get_events_batch batch_size timeout w in
  let avail := available timeout w in
  (avail = [] -> timeout <> None -> snd r = Return []) /\
  (avail <> [] ->
     exists batch,
       snd r = Return batch /\
       batch = take (Z.to_nat batch_size) avail /\
       batch <> [] /\
       Z.of_nat (length batch) <= batch_size /\
       head batch = head avail /\
       Queue.items (events (mgr (fst r))) = drop (Z.to_nat batch_size) avail /\
       env (fst r) = env (waited timeout w)).
Proof.
  intros Hb Ht r avail. subst r avail.
  unfold get_events_batch, bind. rewrite (get_event_spec timeout w Ht).
  pose proof (waited_items timeout w) as Hw.
  destruct (available timeout w) as [|x rest] eqn:Ea.
  - split; [|congruence]. intros _ Hn. destruct timeout; [reflexivity | congruence].
  - split; [congruence|]. intros _. rewrite drain_nowait_spec.
    specialize (Hw ltac:(congruence)).
    replace (Queue.items (events (mgr (taken 1 (waited timeout w))))) with rest
      by (unfold taken; simpl; rewrite Hw; reflexivity).
    destruct (Z.to_nat batch_size) as [|n] eqn:En; [lia|].
    replace (Z.to_nat (batch_size - 1)) with n by lia.
    eexists. split; [reflexivity|]. cbn [app take]. repeat split.
    + discriminate.
    + cbn [length]. rewrite length_take. lia.
    + rewrite taken_taken. unfold taken. simpl. rewrite Hw. reflexivity.
Qed.

Lemma get_events_batch_spec_witness :
  let w := run [Call_add_event (sample 1 "T1") false None;
                Call_add_event (sample 2 "T2") false None;
                Call_add_event (sample 3 "T3") false None]
             (fresh 0 None []) in
  let r := get_events_batch 10 (Some 1000) w in
  let avail := available (Some 1000) w in
  (avail = [] -> Some 1000 <> None -> snd r = Return []) /\
  (avail <> [] ->
     exists batch,
       snd r = Return batch /\
       batch = take (Z.to_nat 10) avail /\
       batch <> [] /\
       Z.of_nat (length batch) <= 10 /\
       head batch = head avail /\
       Queue.items (events (mgr (fst r))) = drop (Z.to_nat 10) avail /\
       env (fst r) = env (waited (Some 1000) w)).
Proof.
  intros w. apply (get_events_batch_spec 10 (Some 1000) w).
  - lia.
  - intros t [= <-]. lia.
Defined.

(** C2 as stated fails for a [batch_size] below 1, where the event awaited is
    returned all the same, and for a negative timeout, where [Queue.get]
    raises [ValueError]. *)
Lemma get_events_batch_out_of_range :
  let w := run [Call_add_event (sample 1 "T1") false None;
                Call_add_event (sample 2 "T2") false None]
             (fresh 0 None []) in
  snd (get_events_batch 0 (Some 1000) w) = Return [sample 1 "T1"] /\
  snd (get_events_batch 10 (Some (-1)) w) =
    Raise (ValueError "'timeout' must be a non-negative number").
Proof. split; reflexivity. Qed.

(** ** Adding to the queue *)









(** A retry that succeeds: a consumer takes an item during the last wait of
    the retry, and the batch goes on with the next event. *)
Example add_events_batch_retry_succeeds :
  let w := run [Call_add_event (sample 0 "T0") false None]
             (fresh 1 None [Quiet; Quiet; ConsumerGets; ConsumerGets]) in
  let r := add_events_batch [sample 1 "T1"; sample 2 "T2"] false w in
  snd r = Return tt /\
  Queue.items (events (mgr (fst r))) = [sample 2 "T2"] /\
  received (fst r) = received w + 2.
Proof. repeat split. Qed.

(** ** Transaction identifiers *)

Lemma value_digits n : value (digits n) = Some n.
Proof.
  unfold value, digits. rewrite NilEmpty.usu. simpl.
  f_equal. apply Unsigned.of_to.
Qed.

Lemma value_zeros k s : value (zeros k s) = value s.
Proof.
  induction k as [|k IH]; [reflexivity|].
  rewrite <- IH. unfold value. cbn [zeros NilEmpty.uint_of_string].
  destruct (NilEmpty.uint_of_string (zeros k s)); reflexivity.
Qed.

Lemma value_zfill width n : value (zfill width (digits n)) = Some n.
Proof. unfold zfill. rewrite value_zeros. apply value_digits. Qed.

Lemma value_minus s : value (String "-"%char s) = None.
Proof.
  unfold value. cbn [NilEmpty.uint_of_string].
  destruct (NilEmpty.uint_of_string s); reflexivity.
Qed.

(** The format [0{width}d] gives different strings for different integers. *)
Lemma format_0d_inj width a b : format_0d width a = format_0d width b -> a = b.
Proof.
  unfold format_0d. intros H.
  destruct (Z.ltb_spec a 0) as [Ha|Ha], (Z.ltb_spec b 0) as [Hb|Hb].
  - injection H as H. apply (f_equal value) in H.
    rewrite !value_zfill in H. injection H as H. lia.
  - apply (f_equal value) in H. rewrite value_minus, value_zfill in H. discriminate.
  - apply (f_equal value) in H. rewrite value_minus, value_zfill in H. discriminate.
  - apply (f_equal value) in H. rewrite !value_zfill in H. injection H as H. lia.
Qed.

(** C8.  For two different event ids that are not negative, the events
    that [_generate_event] makes carry different [transaction_id]s, whatever
    the random source and the clock give. *)
Theorem transaction_id_unique rnd rnd' a b :
  0 <= a -> 0 <= b -> a <> b ->
  transaction_id (Producer._generate_event rnd a) <>
  transaction_id (Producer._generate_event rnd' b).
Proof.
  intros _ _ Hne H. apply Hne. unfold Producer._generate_event in H. simpl in H.
  injection H as H. apply (format_0d_inj 10). exact H.
Qed.

Lemma transaction_id_unique_witness :
  transaction_id (Producer._generate_event some_draws 7) <>
  transaction_id (Producer._generate_event some_draws 12345678901).
Proof.
  apply (transaction_id_unique some_draws some_draws 7 12345678901); lia.
Defined.

(** ** The push consumer: flushing at the threshold *)

Lemma feed_snoc now events e c :
  ConsumerPush.feed now (events ++ [e]) c =
  ConsumerPush.on_event_received now e (ConsumerPush.feed now events c).
Proof. unfold ConsumerPush.feed. rewrite foldl_app. reflexivity. Qed.

Lemma length_concat_uniform {A} (b : nat) (ls : list (list A)) :
  Forall (fun l => length l = b) ls -> length (concat ls) = (b * length ls)%nat.
Proof.
  induction 1 as [|l ls Hl _ IH]; simpl; [lia|].
  rewrite length_app, IH, Hl. lia.
Qed.

(** What holds after any number of deliveries to a consumer just built: the
    flushed batches, followed by the pending one, are the events delivered;
    every flushed batch is full, the pending one is not. *)
Lemma feed_invariant (b : nat) now events :
  (0 < b)%nat ->
  let c := ConsumerPush.feed now events (ConsumerPush.__init__ (Z.of_nat b)) in
  ConsumerPush.batch_size c = Z.of_nat b /\
  concat (ConsumerPush.bulk_insert_calls c) ++ ConsumerPush.event_batch c = events /\
  Forall (fun l => length l = b) (ConsumerPush.bulk_insert_calls c) /\
  (length (ConsumerPush.event_batch c) < b)%nat /\
  ConsumerPush.events_processed c =
    Z.of_nat (length (concat (ConsumerPush.bulk_insert_calls c))).
Proof.
  intros Hb. induction events as [|e events IH] using rev_ind.
  - simpl. repeat split; auto; lia.
  - rewrite feed_snoc.
    set (c := ConsumerPush.feed now events (ConsumerPush.__init__ (Z.of_nat b))) in *.
    simpl in IH. destruct IH as (Hbs&Hcat&Hall&Hlen&Hproc).
    unfold ConsumerPush.on_event_received. cbn [ConsumerPush.batch_size
      ConsumerPush.event_batch]. rewrite Hbs, length_app. cbn [length].
    destruct (Z.leb_spec (Z.of_nat b) (Z.of_nat (length (ConsumerPush.event_batch c) + 1))).
    + unfold ConsumerPush._process_batch, ConsumerPush._bulk_insert. simpl.
      rewrite concat_app. simpl. rewrite !app_nil_r.
      repeat split; auto.
      * rewrite app_assoc, Hcat. reflexivity.
      * apply Forall_app. split; [exact Hall|]. constructor; [|constructor].
        rewrite length_app. simpl. lia.
      * rewrite Hproc, !length_app. simpl. lia.
    + simpl. repeat split; auto.
      * rewrite app_assoc, Hcat. reflexivity.
      * rewrite length_app. simpl. lia.
Qed.

(** C5.  For a batch size [b] of at least 1: after [b * k + r] events
    ([r < b]) delivered one at a time to a consumer just built, [_bulk_insert]
    has been called exactly [k] times, each time with [b] events, the first
    [b * k] events in order; [finish] then calls it once more, with the [r]
    events left, if [r] is not zero, and not at all if [r] is zero. *)
Theorem flush_at_threshold (b k r : nat) now now' events :
  (0 < b)%nat -> (r < b)%nat -> length events = (b * k + r)%nat ->
  let c := ConsumerPush.feed now events (ConsumerPush.__init__ (Z.of_nat b)) in
  length (ConsumerPush.bulk_insert_calls c) = k /\
  Forall (fun l => length l = b) (ConsumerPush.bulk_insert_calls c) /\
  concat (ConsumerPush.bulk_insert_calls c) = take (b * k) events /\
  ConsumerPush.bulk_insert_calls (ConsumerPush.finish now' c) =
    ConsumerPush.bulk_insert_calls c ++
    match r with
    | O => []
    | _ => [drop (b * k) events]
    end /\
  length (drop (b * k) events) = r.
Proof.
  intros Hb Hr Hlen c.
  destruct (feed_invariant b now events Hb) as (Hbs&Hcat&Hall&Hpend&_).
  fold c in Hbs, Hcat, Hall, Hpend.
  pose proof (length_concat_uniform b _ Hall) as Hcl.
  assert (Hsum : (b * length (ConsumerPush.bulk_insert_calls c)
                  + length (ConsumerPush.event_batch c) = b * k + r)%nat).
  { rewrite <- Hcl, <- length_app, Hcat. exact Hlen. }
  destruct (Nat.div_mod_unique b _ _ _ _ Hpend Hr Hsum) as [Hk Hrr].
  assert (Htake : take (b * k) events = concat (ConsumerPush.bulk_insert_calls c)).
  { rewrite <- Hcat. apply take_app_length'. rewrite Hcl, Hk. reflexivity. }
  assert (Hdrop : drop (b * k) events = ConsumerPush.event_batch c).
  { rewrite <- Hcat. apply drop_app_length'. rewrite Hcl, Hk. reflexivity. }
  repeat split; auto.
  - unfold ConsumerPush.finish. rewrite Hdrop.
    destruct (ConsumerPush.event_batch c) as [|e rest] eqn:Eb.
    + simpl in Hrr. subst r. simpl. rewrite app_nil_r. reflexivity.
    + simpl in Hrr. subst r. cbn [nonempty].
      unfold ConsumerPush._process_batch, ConsumerPush._bulk_insert. simpl.
      rewrite Eb. reflexivity.
  - rewrite Hdrop. exact Hrr.
Qed.

Lemma flush_at_threshold_witness :
  let events := [sample 0 "T0"; sample 1 "T1"; sample 2 "T2"; sample 3 "T3"; sample 4 "T4"] in
  let c := ConsumerPush.feed 10 events (ConsumerPush.__init__ (Z.of_nat 2)) in
  length (ConsumerPush.bulk_insert_calls c) = 2%nat /\
  Forall (fun l => length l = 2%nat) (ConsumerPush.bulk_insert_calls c) /\
  concat (ConsumerPush.bulk_insert_calls c) = take (2 * 2) events /\
  ConsumerPush.bulk_insert_calls (ConsumerPush.finish 20 c) =
    ConsumerPush.bulk_insert_calls c ++ [drop (2 * 2) events] /\
  length (drop (2 * 2) events) = 1%nat.
Proof.
  intros events.
  apply (flush_at_threshold 2 2 1 10 20 events); [lia | lia | reflexivity].
Defined.

(** ** The sink: inserting twice *)

Lemma conflicts_iff U table now e :
  keyed U -> made_from U table -> e ∈ U ->
  existsb (Sink.conflicts (Sink.row_of now e)) table = true <->
  transaction_id e ∈ stored_ids table.
Proof.
  intros Hk Hm He. rewrite existsb_exists. unfold stored_ids.
  rewrite list_elem_of_fmap. split.
  - intros (r&Hr&Hc). apply list_elem_of_In in Hr. exists r. split; [|exact Hr].
    destruct (Hm r Hr) as (e'&He'&Hid&Htx).
    unfold Sink.conflicts in Hc. simpl in Hc. apply orb_prop in Hc as [Hc|Hc].
    + apply Z.eqb_eq in Hc. rewrite Htx. apply (Hk e e' He He'). congruence.
    + apply bool_decide_eq_true_1 in Hc. exact Hc.
  - intros (r&Htx&Hr). exists r. split; [apply list_elem_of_In; exact Hr|].
    unfold Sink.conflicts. simpl. apply orb_true_intro. right.
    apply bool_decide_eq_true_2. exact Htx.
Qed.

Lemma insert_or_ignore_keeps U table now e :
  keyed U -> made_from U table -> NoDup (stored_ids table) -> e ∈ U ->
  let table' := Sink.insert_or_ignore table (Sink.row_of now e) in
  made_from U table' /\ NoDup (stored_ids table') /\
  list_to_set (stored_ids table') =@{gset string}
    list_to_set (stored_ids table) ∪ {[transaction_id e]}.
Proof.
  intros Hk Hm Hn He. unfold Sink.insert_or_ignore.
  pose proof (conflicts_iff U table now e Hk Hm He) as Hc.
  destruct (existsb (Sink.conflicts (Sink.row_of now e)) table).
  - simpl. split; [exact Hm|]. split; [exact Hn|].
    assert (transaction_id e ∈ stored_ids table) by (apply Hc; reflexivity).
    set_solver.
  - simpl. assert (Hfresh : transaction_id e ∉ stored_ids table).
    { intros Hin. apply Hc in Hin. discriminate. }
    split; [|split].
    + intros r Hr. apply elem_of_app in Hr as [Hr|Hr]; [apply Hm; exact Hr|].
      apply list_elem_of_singleton in Hr. subst r. exists e. auto.
    + unfold stored_ids. rewrite fmap_app. apply NoDup_app. split; [exact Hn|].
      split; [|apply NoDup_singleton].
      intros x Hx Hx'. apply list_elem_of_singleton in Hx'. simpl in Hx'. subst x.
      exact (Hfresh Hx).
    + unfold stored_ids. rewrite fmap_app. apply list_to_set_snoc_L.
Qed.

Lemma executemany_keeps U now events table :
  keyed U -> made_from U table -> NoDup (stored_ids table) -> events ⊆ U ->
  let table' := Sink.executemany table (map (Sink.row_of now) events) in
  made_from U table' /\ NoDup (stored_ids table') /\
  list_to_set (stored_ids table') =@{gset string}
    list_to_set (stored_ids table) ∪ transaction_ids events.
Proof.
  intros Hk. revert table. unfold Sink.executemany.
  induction events as [|e events IH]; intros table Hm Hn Hsub.
  - simpl. split; [exact Hm|]. split; [exact Hn|]. unfold transaction_ids. set_solver.
  - cbn [map foldl].
    destruct (insert_or_ignore_keeps U table now e Hk Hm Hn) as (Hm'&Hn'&Hs').
    { apply Hsub. left. }
    destruct (IH _ Hm' Hn') as (Hm''&Hn''&Hs'').
    { intros x Hx. apply Hsub. right. exact Hx. }
    split; [exact Hm''|]. split; [exact Hn''|].
    rewrite Hs'', Hs'. unfold transaction_ids. set_solver.
Qed.

Lemma _bulk_insert_keeps U now events table :
  keyed U -> made_from U table -> NoDup (stored_ids table) -> events ⊆ U ->
  let table' := Sink._bulk_insert now events table in
  made_from U table' /\ NoDup (stored_ids table') /\
  list_to_set (stored_ids table') =@{gset string}
    list_to_set (stored_ids table) ∪ transaction_ids events.
Proof.
  intros Hk Hm Hn Hsub. unfold Sink._bulk_insert.
  destruct events as [|e events].
  - simpl. split; [exact Hm|]. split; [exact Hn|]. unfold transaction_ids. set_solver.
  - cbn [nonempty negb]. apply (executemany_keeps U); assumption.
Qed.




(** ** Counters of the producer and of the consumers *)

Section NeverLowers.
Context {St : Type} (f : St -> Z).




End NeverLowers.













(** ** What calls leave alone *)

Section Respects.
Context {R : World -> World -> Prop} {HF : Frame R}.

Lemma respects_ret {A} (a : A) : respects R (ret a).
Proof. intros w. apply frame_refl. Qed.

Lemma respects_raise {A} e : respects R (@raise World A e).
Proof. intros w. apply frame_refl. Qed.

Lemma respects_hang {A} : respects R (@hang World A).
Proof. intros w. apply frame_refl. Qed.

Lemma respects_gets {A} (f : World -> A) : respects R (gets f).
Proof. intros w. apply frame_refl. Qed.

Lemma respects_bind {A B} (m : Py World A) (k : A -> Py World B) :
  respects R m -> (forall a, respects R (k a)) -> respects R (bind m k).
Proof.
  intros Hm Hk w. unfold bind. specialize (Hm w).
  destruct (m w) as [w1 [a|e|]]; simpl in *; auto.
  eapply frame_trans; [exact Hm | apply Hk].
Qed.

Lemma respects_try_except {A} (body : Py World A) catches handler :
  respects R body -> (forall e, respects R (handler e)) ->
  respects R (try_except body catches handler).
Proof.
  intros Hb Hh w. unfold try_except. specialize (Hb w).
  destruct (body w) as [w1 [a|e|]]; simpl in *; auto.
  destruct (catches e); auto. eapply frame_trans; [exact Hb | apply Hh].
Qed.

Lemma respects_for_each {A} (xs : list A) (body : A -> Py World unit) :
  (forall x, respects R (body x)) -> respects R (for_each xs body).
Proof.
  intros Hb. induction xs as [|x xs IH]; simpl.
  - apply respects_ret.
  - apply respects_bind; auto.
Qed.

Lemma respects_call cb p : respects_invoke R -> respects R (call cb p).
Proof.
  intros Hinv. unfold call. apply respects_bind; [apply Hinv|]. intros _.
  destruct (cb_body cb p); [apply respects_raise | apply respects_ret].
Qed.

Lemma respects__safe_call cb p : respects_invoke R -> respects R (_safe_call cb p).
Proof.
  intros Hinv. unfold _safe_call.
  apply respects_try_except; [apply respects_call; exact Hinv|].
  intros _. apply frame_log. reflexivity.
Qed.

Lemma respects_join : respects R join.
Proof.
  unfold join, events_join. apply respects_try_except.
  - apply respects_bind; [apply respects_gets|]. intros q.
    destruct (Queue.unfinished_tasks q =? 0); [apply respects_ret | apply respects_hang].
  - intros _. apply frame_log. reflexivity.
Qed.

Lemma respects_add_event event block timeout :
  (forall b t, respects R (events_put event b t >> bump_received_queued)) ->
  respects R (add_event event block timeout).
Proof.
  intros Hput. unfold add_event. apply respects_try_except.
  - destruct block; [apply Hput | apply Hput].
  - intros _. apply respects_bind; [apply frame_log; reflexivity|]. intros _. apply Hput.
Qed.

Lemma respects_add_events_batch events block :
  (forall ev b t, respects R (events_put ev b t >> bump_received_queued)) ->
  respects R (add_events_batch events block).
Proof.
  intros Hput. unfold add_events_batch. apply respects_for_each. intros ev.
  apply respects_try_except; [apply respects_add_event; apply Hput|].
  intros _. apply respects_bind; [apply frame_log; reflexivity|]. intros _.
  apply respects_add_event. apply Hput.
Qed.

Lemma respects_get_event timeout :
  (forall b t, respects R (events_get b t)) -> respects R (get_event timeout).
Proof.
  intros Hget. unfold get_event. apply respects_try_except.
  - apply respects_bind; [apply Hget|]. intros ev. apply respects_ret.
  - intros _. apply respects_ret.
Qed.

Lemma respects_drain_nowait k batch :
  (forall b t, respects R (events_get b t)) -> respects R (drain_nowait k batch).
Proof.
  intros Hget. revert batch. induction k as [|k IH]; intros batch; [apply respects_ret|].
  intros w. simpl. pose proof (Hget false None w) as H. unfold events_get_nowait.
  destruct (events_get false None w) as [w1 [ev|e|]]; simpl in H.
  - eapply frame_trans; [exact H | apply IH].
  - destruct e; exact H.
  - exact H.
Qed.

Lemma respects_get_events_batch batch_size timeout :
  (forall b t, respects R (events_get b t)) ->
  respects R (get_events_batch batch_size timeout).
Proof.
  intros Hget. unfold get_events_batch.
  apply respects_bind; [apply respects_get_event; exact Hget|].
  intros [first|]; [apply respects_drain_nowait; exact Hget | apply respects_ret].
Qed.

Lemma respects_task_done n :
  respects R
    (events_task_done >>
     modify (set_mgr (fun m =>
       if 0 <? _total_events_queued m then set_queued (fun c => c - 1) m else m))) ->
  respects R (task_done n).
Proof.
  intros Hdone. unfold task_done, for_range. apply respects_for_each. intros _.
  apply respects_try_except; [exact Hdone|]. intros _. apply frame_log. reflexivity.
Qed.

Lemma respects_dispatch label callbacks p :
  respects_invoke R ->
  (forall cb, respects R (executor_submit cb p)) ->
  respects R (dispatch label callbacks p).
Proof.
  intros Hinv Hsub. unfold dispatch. apply respects_bind; [apply respects_gets|].
  intros async. destruct async; apply respects_for_each; intros cb.
  - apply respects_try_except; [apply Hsub|]. intros _. apply frame_log. reflexivity.
  - apply respects__safe_call. exact Hinv.
Qed.

Lemma respects_push_event event :
  respects_invoke R ->
  (forall cb p, respects R (executor_submit cb p)) ->
  (forall n, respects R (modify (set_mgr (fun m =>
     set_pushed (Z.add n) (set_received (Z.add n) m))))) ->
  respects R (push_event event).
Proof.
  intros Hinv Hsub Hbump. unfold push_event.
  apply respects_bind; [apply respects_gets|]. intros ecbs.
  apply respects_bind; [apply respects_gets|]. intros bcbs.
  apply respects_bind.
  { destruct (nonempty bcbs); [apply respects_dispatch; [exact Hinv | intros; apply Hsub]
                              | apply respects_ret]. }
  intros _. apply respects_bind; [|intros _; apply Hbump].
  destruct (nonempty ecbs); [apply respects_dispatch; [exact Hinv | intros; apply Hsub]
                            | apply respects_ret].
Qed.

Lemma respects_push_events_batch events :
  respects_invoke R ->
  (forall cb p, respects R (executor_submit cb p)) ->
  (forall n, respects R (modify (set_mgr (fun m =>
     set_pushed (Z.add n) (set_received (Z.add n) m))))) ->
  respects R (push_events_batch events).
Proof.
  intros Hinv Hsub Hbump. unfold push_events_batch.
  destruct (negb (nonempty events)); [apply respects_ret|].
  apply respects_bind; [apply respects_gets|]. intros bcbs.
  apply respects_bind; [apply respects_gets|]. intros ecbs.
  apply respects_bind.
  { destruct (nonempty bcbs); [apply respects_dispatch; [exact Hinv | intros; apply Hsub]
                              | apply respects_ret]. }
  intros _. apply respects_bind; [|intros _; apply Hbump].
  destruct (nonempty ecbs); [|apply respects_ret].
  apply respects_for_each. intros ev. apply respects_dispatch; [exact Hinv | intros; apply Hsub].
Qed.

Lemma respects_executor_run :
  respects_invoke R ->
  respects R (modify (set_mgr (set_executor (fun o =>
    match o with Some ex => Some (mkExecutor (ex_shutdown ex) []) | None => None end)))) ->
  respects R executor_run.
Proof.
  intros Hinv Hclear. unfold executor_run.
  apply respects_bind; [apply respects_gets|]. intros work.
  apply respects_bind; [exact Hclear|]. intros _.
  apply respects_for_each. intros item.
  apply respects_try_except; [apply respects__safe_call; exact Hinv|]. intros _. apply respects_ret.
Qed.
End Respects.

Lemma wait_not_full_effect limited evs q :
  let r := wait_not_full limited evs q in
  Queue.maxsize (snd (fst r)) = Queue.maxsize q /\
  Queue.unfinished_tasks (snd (fst r)) = Queue.unfinished_tasks q /\
  (exists k, Queue.items (snd (fst r)) = drop k (Queue.items q)) /\
  (snd r = Return tt -> Queue.qsize (snd (fst r)) < Queue.maxsize q).
Proof.
  revert q. induction evs as [|ev evs IH]; intros q; simpl.
  - destruct (Z.leb_spec (Queue.maxsize q) (Queue.qsize q)); simpl.
    + repeat split; auto; [exists 0%nat; reflexivity | destruct limited; discriminate].
    + repeat split; auto. exists 0%nat; reflexivity.
  - destruct (Z.leb_spec (Queue.maxsize q) (Queue.qsize q)); simpl.
    + destruct ev; simpl;
        try (repeat split; auto; [exists 0%nat; reflexivity | destruct limited; discriminate]).
      destruct (IH (Queue.without_head q)) as (Hm&Hu&(k&Hk)&Hr). simpl in *.
      repeat split; auto.
      exists (S k). rewrite Hk. destruct (Queue.items q) as [|x l]; simpl;
        [destruct k; reflexivity | reflexivity].
    + repeat split; auto. exists 0%nat; reflexivity.
Qed.

Ltac setup :=
  unfold same_setup, capacity, has_executor, accepting, modify, set_mgr; simpl;
  repeat split; auto.

#[local] Instance same_setup_frame : Frame same_setup.
Proof.
  split.
  - intros w. setup.
  - unfold same_setup. intros w1 w2 w3 (?&?&?&?&?&?) (?&?&?&?&?&?).
    repeat split; congruence.
  - intros a _ w. setup.
Qed.

Lemma same_setup_await_not_full limited : respects same_setup (await_not_full limited).
Proof.
  intros w. unfold await_not_full.
  pose proof (wait_not_full_effect limited (env w) (events (mgr w))) as (Hm&_).
  destruct (wait_not_full limited (env w) (events (mgr w))) as [[evs q] r].
  simpl in Hm. setup.
Qed.

Lemma same_setup_events_put item block timeout :
  respects same_setup (events_put item block timeout).
Proof.
  unfold events_put. apply respects_bind; [apply respects_gets|].
  intros q. apply respects_bind.
  - destruct (0 <? Queue.maxsize q); [|apply respects_ret].
    destruct (negb block).
    + destruct (Queue.maxsize q <=? Queue.qsize q);
        [apply respects_raise | apply respects_ret].
    + destruct timeout as [t|]; [|apply same_setup_await_not_full].
      destruct (t <? 0); [apply respects_raise|].
      destruct (Queue.maxsize q <=? Queue.qsize q); [|apply respects_ret].
      destruct (t =? 0); [apply respects_raise | apply same_setup_await_not_full].
  - intros _ w. setup.
Qed.

Lemma same_setup_events_get block timeout :
  respects same_setup (events_get block timeout).
Proof.
  assert (Hw : forall limited, respects same_setup (await_not_empty limited)).
  { intros limited w. unfold await_not_empty.
    destruct (Queue.empty (events (mgr w))); [|apply frame_refl].
    destruct (env w) as [|[e| |] evs]; setup. }
  unfold events_get. apply respects_bind; [apply respects_gets|].
  intros q. apply respects_bind.
  - destruct (negb block).
    + destruct (Queue.empty q); [apply respects_raise | apply respects_ret].
    + destruct timeout as [t|]; [|apply Hw].
      destruct (t <? 0); [apply respects_raise|].
      destruct (Queue.empty q); [|apply respects_ret].
      destruct (t =? 0); [apply respects_raise | apply Hw].
  - intros _ w. unfold events_take. destruct (Queue.items (events (mgr w))); setup.
Qed.

Lemma same_setup_task_done_round :
  respects same_setup
    (events_task_done >>
     modify (set_mgr (fun m =>
       if 0 <? _total_events_queued m then set_queued (fun c => c - 1) m else m))).
Proof.
  apply respects_bind.
  - unfold events_task_done. apply respects_bind; [apply respects_gets|].
    intros q. destruct (Queue.unfinished_tasks q - 1 <? 0); [apply respects_raise|].
    intros w. setup.
  - intros _ w. unfold modify, set_mgr. simpl.
    destruct (0 <? _total_events_queued (mgr w)); setup.
Qed.

Lemma same_setup_executor_submit cb p : respects same_setup (executor_submit cb p).
Proof.
  intros w. unfold executor_submit.
  destruct (_push_executor (mgr w)) as [ex|] eqn:E; [|apply frame_refl].
  destruct (ex_shutdown ex) eqn:Es; [apply frame_refl|].
  setup; rewrite ?E; simpl; rewrite ?Es; reflexivity.
Qed.

(** Apart from the calls that register or unregister a callback and from
    [stop], no call changes the stop flag, the registries, the capacity of
    the queue, or whether there is a pool and whether it takes work. *)
Lemma after_same_setup c w :
  is_registry_call c = false -> is_stop_call c = false -> same_setup w (after c w).
Proof.
  assert (Hinv : respects_invoke same_setup) by (intros id p w0; setup).
  assert (Hput : forall ev b t,
            respects same_setup (events_put ev b t >> bump_received_queued)).
  { intros. apply respects_bind; [apply same_setup_events_put|].
    intros _ w0. setup. }
  assert (Hbump : forall n, respects same_setup (modify (set_mgr (fun m =>
            set_pushed (Z.add n) (set_received (Z.add n) m)))))
    by (intros n w0; setup).
  destruct c; cbn [is_registry_call is_stop_call after]; try discriminate; intros _ _;
    try apply frame_refl.
  - apply respects_add_event; auto.
  - apply respects_add_events_batch; auto.
  - apply respects_get_event; auto. intros; apply same_setup_events_get.
  - apply respects_get_events_batch; auto. intros; apply same_setup_events_get.
  - apply respects_task_done; auto. apply same_setup_task_done_round.
  - apply respects_join; auto.
  - apply respects_push_event; auto. intros; apply same_setup_executor_submit.
  - apply respects_push_events_batch; auto. intros; apply same_setup_executor_submit.
  - apply respects_executor_run; auto. intros w0.
    setup; destruct (_push_executor (mgr w0)); reflexivity.
Qed.

Ltac frame_tac R :=
  unfold R, capacity, queued, pushed, pool_work, has_executor, accepting,
    modify, log, set_mgr; simpl; repeat split; auto.

#[local] Instance same_queue_frame : Frame same_queue.
Proof.
  split.
  - intros w. frame_tac same_queue.
  - unfold same_queue. intros w1 w2 w3 (?&?&?) (?&?&?). repeat split; congruence.
  - intros a _ w. frame_tac same_queue.
Qed.

(** A call that is not one of the queue calls leaves the queue, the queued
    counter and the other threads as they are. *)
Lemma after_same_queue c w : is_pull_call c = false -> same_queue w (after c w).
Proof.
  assert (Hinv : respects_invoke same_queue) by (intros id p w0; frame_tac same_queue).
  assert (Hsub : forall cb p, respects same_queue (executor_submit cb p)).
  { intros cb p w0. unfold executor_submit.
    destruct (_push_executor (mgr w0)) as [ex|]; [|apply frame_refl].
    destruct (ex_shutdown ex); [apply frame_refl | frame_tac same_queue]. }
  assert (Hbump : forall n, respects same_queue (modify (set_mgr (fun m =>
            set_pushed (Z.add n) (set_received (Z.add n) m)))))
    by (intros n w0; frame_tac same_queue).
  destruct c; cbn [is_pull_call after]; try discriminate; intros _;
    try (frame_tac same_queue; fail).
  - apply respects_push_event; auto.
  - apply respects_push_events_batch; auto.
  - apply respects_executor_run; auto. intros w0. frame_tac same_queue.
Qed.

Lemma deliveries_snoc_other tr a :
  is_delivery a = false -> deliveries (tr ++ [a]) = deliveries tr.
Proof.
  intros H. unfold deliveries. rewrite filter_app. simpl.
  rewrite filter_cons. destruct (decide (is_delivery a)) as [Hd|Hd].
  - rewrite H in Hd. contradiction.
  - rewrite filter_nil, app_nil_r. reflexivity.
Qed.

#[local] Instance same_push_frame : Frame same_push.
Proof.
  split.
  - intros w. frame_tac same_push.
  - unfold same_push. intros w1 w2 w3 (?&?&?) (?&?&?). repeat split; congruence.
  - intros a Ha w. frame_tac same_push. apply deliveries_snoc_other. exact Ha.
Qed.

Lemma same_push_events_put item block timeout :
  respects same_push (events_put item block timeout).
Proof.
  assert (Hw : forall limited, respects same_push (await_not_full limited)).
  { intros limited w. unfold await_not_full.
    destruct (wait_not_full limited (env w) (events (mgr w))) as [[evs q] r].
    frame_tac same_push. }
  unfold events_put. apply respects_bind; [apply respects_gets|].
  intros q. apply respects_bind.
  - destruct (0 <? Queue.maxsize q); [|apply respects_ret].
    destruct (negb block).
    + destruct (Queue.maxsize q <=? Queue.qsize q);
        [apply respects_raise | apply respects_ret].
    + destruct timeout as [t|]; [|apply Hw].
      destruct (t <? 0); [apply respects_raise|].
      destruct (Queue.maxsize q <=? Queue.qsize q); [|apply respects_ret].
      destruct (t =? 0); [apply respects_raise | apply Hw].
  - intros _ w. frame_tac same_push.
Qed.

Lemma same_push_events_get block timeout :
  respects same_push (events_get block timeout).
Proof.
  assert (Hw : forall limited, respects same_push (await_not_empty limited)).
  { intros limited w. unfold await_not_empty.
    destruct (Queue.empty (events (mgr w))); [|apply frame_refl].
    destruct (env w) as [|[e| |] evs]; frame_tac same_push. }
  unfold events_get. apply respects_bind; [apply respects_gets|].
  intros q. apply respects_bind.
  - destruct (negb block).
    + destruct (Queue.empty q); [apply respects_raise | apply respects_ret].
    + destruct timeout as [t|]; [|apply Hw].
      destruct (t <? 0); [apply respects_raise|].
      destruct (Queue.empty q); [|apply respects_ret].
      destruct (t =? 0); [apply respects_raise | apply Hw].
  - intros _ w. unfold events_take.
    destruct (Queue.items (events (mgr w))); frame_tac same_push.
Qed.

(** A call that is not a push, and not the pool at work, calls no callback,
    submits nothing to the pool and leaves the pushed counter as it is. *)
Lemma after_same_push c w : is_push_call c = false -> same_push w (after c w).
Proof.
  assert (Hput : forall ev b t,
            respects same_push (events_put ev b t >> bump_received_queued)).
  { intros. apply respects_bind; [apply same_push_events_put|].
    intros _ w0. frame_tac same_push. }
  destruct c; cbn [is_push_call after]; try discriminate; intros _;
    try (frame_tac same_push; fail).
  - apply respects_add_event; auto.
  - apply respects_add_events_batch; auto.
  - apply respects_get_event; auto. intros; apply same_push_events_get.
  - apply respects_get_events_batch; auto. intros; apply same_push_events_get.
  - apply respects_task_done; auto. apply respects_bind.
    + unfold events_task_done. apply respects_bind; [apply respects_gets|].
      intros q. destruct (Queue.unfinished_tasks q - 1 <? 0); [apply respects_raise|].
      intros w0. frame_tac same_push.
    + intros _ w0. unfold modify, set_mgr. simpl.
      destruct (0 <? _total_events_queued (mgr w0)); frame_tac same_push.
  - apply respects_join; auto.
Qed.

(** ** The invariant of the queue *)

Lemma await_not_full_effect limited w :
  exists w1 r,
    await_not_full limited w = (w1, r) /\
    capacity w1 = capacity w /\ unfinished w1 = unfinished w /\ queued w1 = queued w /\
    (length (in_queue w1) <= length (in_queue w))%nat /\
    (r = Return tt -> Z.of_nat (length (in_queue w1)) < capacity w).
Proof.
  unfold await_not_full.
  pose proof (wait_not_full_effect limited (env w) (events (mgr w))) as (Hm&Hu&(k&Hk)&Hr).
  destruct (wait_not_full limited (env w) (events (mgr w))) as [[evs q] r].
  simpl in *. eexists _, _. split; [reflexivity|].
  unfold capacity, unfinished, queued, in_queue. simpl.
  repeat split; auto. rewrite Hk, length_drop. lia.
Qed.

(** What [Queue.put] does to the queue: on return one more item and one more
    unfinished task, within the capacity; otherwise no more items than before. *)
Lemma events_put_effect item block timeout w :
  exists w1 r,
    events_put item block timeout w = (w1, r) /\
    capacity w1 = capacity w /\ queued w1 = queued w /\
    ((r = Return tt /\ unfinished w1 = unfinished w + 1 /\
      (0 < capacity w -> Z.of_nat (length (in_queue w1)) <= capacity w))
     \/ (r <> Return tt /\ unfinished w1 = unfinished w /\
         (length (in_queue w1) <= length (in_queue w))%nat)).
Proof.
  unfold events_put. unfold bind at 1. unfold gets.
  fold (capacity w).
  assert (Hq : Queue.qsize (events (mgr w)) = Z.of_nat (length (in_queue w))) by reflexivity.
  rewrite Hq.
  assert (Hput : forall w0, capacity w0 = capacity w -> unfinished w0 = unfinished w ->
            queued w0 = queued w ->
            (0 < capacity w -> Z.of_nat (length (in_queue w0)) < capacity w) ->
            exists w1 r,
              modify (set_mgr (set_events (Queue.do_put item))) w0 = (w1, r) /\
              capacity w1 = capacity w /\ queued w1 = queued w /\
              ((r = Return tt /\ unfinished w1 = unfinished w + 1 /\
                (0 < capacity w -> Z.of_nat (length (in_queue w1)) <= capacity w))
               \/ (r <> Return tt /\ unfinished w1 = unfinished w /\
                   (length (in_queue w1) <= length (in_queue w))%nat))).
  { intros w0 Hc Hu Hqd Hroom. eexists _, _. split; [reflexivity|].
    unfold capacity, unfinished, queued, in_queue in *. simpl.
    split; [exact Hc|]. split; [exact Hqd|]. left.
    split; [reflexivity|]. split; [lia|].
    intros Hpos. rewrite length_app. simpl. specialize (Hroom Hpos). lia. }
  assert (Hfail : forall (r : outcome unit), r <> Return tt ->
            exists w1 r1,
              (w, r) = (w1, r1) /\
              capacity w1 = capacity w /\ queued w1 = queued w /\
              ((r1 = Return tt /\ unfinished w1 = unfinished w + 1 /\
                (0 < capacity w -> Z.of_nat (length (in_queue w1)) <= capacity w))
               \/ (r1 <> Return tt /\ unfinished w1 = unfinished w /\
                   (length (in_queue w1) <= length (in_queue w))%nat))).
  { intros r Hr. eexists _, _. split; [reflexivity|].
    split; [reflexivity|]. split; [reflexivity|]. right.
    split; [exact Hr|]. split; [reflexivity | lia]. }
  assert (Hwait : forall limited, 0 < capacity w ->
            exists w1 r,
              (await_not_full limited >>
               modify (set_mgr (set_events (Queue.do_put item)))) w = (w1, r) /\
              capacity w1 = capacity w /\ queued w1 = queued w /\
              ((r = Return tt /\ unfinished w1 = unfinished w + 1 /\
                (0 < capacity w -> Z.of_nat (length (in_queue w1)) <= capacity w))
               \/ (r <> Return tt /\ unfinished w1 = unfinished w /\
                   (length (in_queue w1) <= length (in_queue w))%nat))).
  { intros limited Hpos.
    destruct (await_not_full_effect limited w) as (w0&r0&E&Hc&Hu&Hqd&Hlen&Hroom).
    destruct r0 as [[]|e|].
    - erewrite bind_Return by exact E. apply Hput; auto.
    - erewrite bind_Raise by exact E. eexists _, _. split; [reflexivity|].
      split; [exact Hc|]. split; [exact Hqd|]. right.
      split; [discriminate|]. split; [exact Hu | exact Hlen].
    - erewrite bind_Hang by exact E. eexists _, _. split; [reflexivity|].
      split; [exact Hc|]. split; [exact Hqd|]. right.
      split; [discriminate|]. split; [exact Hu | exact Hlen]. }
  destruct (Z.ltb_spec 0 (capacity w)) as [Hpos|Hnon].
  2:{ unfold bind, ret. apply Hput; auto. lia. }
  destruct block; cbn [negb].
  - destruct timeout as [t|].
    + destruct (t <? 0).
      * unfold bind, raise. apply Hfail. discriminate.
      * destruct (Z.leb_spec (capacity w) (Z.of_nat (length (in_queue w)))).
        -- destruct (t =? 0); [unfold bind, raise; apply Hfail; discriminate|].
           apply Hwait. exact Hpos.
        -- unfold bind, ret. apply Hput; auto.
    + apply Hwait. exact Hpos.
  - destruct (Z.leb_spec (capacity w) (Z.of_nat (length (in_queue w)))).
    + unfold bind, raise. apply Hfail. discriminate.
    + unfold bind, ret. apply Hput; auto.
Qed.

#[local] Instance stays_sound_frame : Frame (stays sound).
Proof.
  split.
  - intros w H. exact H.
  - intros w1 w2 w3 H12 H23 H. auto.
  - intros a _ w H. exact H.
Qed.

Lemma same_queue_sound w w' : same_queue w w' -> stays sound w w'.
Proof.
  unfold same_queue, stays, sound, unfinished, capacity, in_queue.
  intros (He&Hq&_) H. rewrite He, Hq. exact H.
Qed.

Lemma sound_put_and_count item block timeout :
  respects (stays sound) (events_put item block timeout >> bump_received_queued).
Proof.
  intros w (Hq&Hu&Hc).
  destruct (events_put_effect item block timeout w)
    as (w1&r&E&Hcap&Hqd&[(->&Hu1&Hroom)|(Hr&Hu1&Hlen)]).
  - erewrite bind_Return by exact E. unfold sound, queued, unfinished, capacity, in_queue in *.
    simpl. repeat split; try lia; rewrite Hcap; exact Hroom.
  - assert (Ew : fst ((events_put item block timeout >> bump_received_queued) w) = w1).
    { unfold bind. rewrite E. destruct r as [[]|e|]; [congruence|reflexivity|reflexivity]. }
    rewrite Ew. unfold sound. rewrite Hqd, Hu1, Hcap. repeat split; auto;
      intros Hpos; specialize (Hc Hpos); lia.
Qed.

Lemma sound_events_get block timeout : respects (stays sound) (events_get block timeout).
Proof.
  assert (Hw : forall limited, respects (stays sound) (await_not_empty limited)).
  { intros limited w (Hq&Hu&Hc). unfold await_not_empty.
    destruct (Queue.empty (events (mgr w))) eqn:Ee; [|repeat split; assumption].
    destruct (env w) as [|[e| |] evs]; try (repeat split; assumption).
    unfold sound, queued, unfinished, capacity, in_queue in *. simpl.
    rewrite Queue_empty_items in Ee.
    destruct (Queue.items (events (mgr w))); [|discriminate]. simpl.
    repeat split; lia. }
  unfold events_get. apply respects_bind; [apply respects_gets|].
  intros q. apply respects_bind.
  - destruct (negb block).
    + destruct (Queue.empty q); [apply respects_raise | apply respects_ret].
    + destruct timeout as [t|]; [|apply Hw].
      destruct (t <? 0); [apply respects_raise|].
      destruct (Queue.empty q); [|apply respects_ret].
      destruct (t =? 0); [apply respects_raise | apply Hw].
  - intros _ w (Hq&Hu&Hc). unfold events_take.
    destruct (Queue.items (events (mgr w))) as [|x rest] eqn:Ei;
      [repeat split; assumption|].
    unfold sound, queued, unfinished, capacity, in_queue in *. simpl.
    rewrite Ei in *. simpl in *. repeat split; auto. intros Hpos.
    specialize (Hc Hpos). lia.
Qed.

Lemma sound_task_done_round :
  respects (stays sound)
    (events_task_done >>
     modify (set_mgr (fun m =>
       if 0 <? _total_events_queued m then set_queued (fun c => c - 1) m else m))).
Proof.
  intros w (Hq&Hu&Hc). unfold events_task_done, bind, gets, raise, modify.
  fold (unfinished w).
  destruct (Z.ltb_spec (unfinished w - 1) 0); [repeat split; assumption|].
  simpl. unfold queued in Hq.
  assert (Hpos : (0 <? _total_events_queued (mgr w)) = true) by (apply Z.ltb_lt; lia).
  unfold sound, queued, unfinished, capacity, in_queue, set_mgr in *. simpl.
  rewrite Hpos. simpl. repeat split; auto; lia.
Qed.

(** Every call keeps the invariant of the queue. *)
Lemma after_sound c w : sound w -> sound (after c w).
Proof.
  destruct (is_pull_call c) eqn:Ep.
  - destruct c; try discriminate; cbn [after].
    + exact (respects_add_event (R := stays sound) event block timeout
               (fun b t => sound_put_and_count event b t) w).
    + exact (respects_add_events_batch (R := stays sound) events0 block
               (fun ev b t => sound_put_and_count ev b t) w).
    + exact (respects_get_event (R := stays sound) timeout sound_events_get w).
    + exact (respects_get_events_batch (R := stays sound) batch_size timeout
               sound_events_get w).
    + exact (respects_task_done (R := stays sound) n sound_task_done_round w).
    + exact (respects_join (R := stays sound) w).
  - apply same_queue_sound. apply after_same_queue. exact Ep.
Qed.

Lemma fresh_sound max_queue_size workers others :
  sound (fresh max_queue_size workers others).
Proof.
  unfold sound, fresh, queued, unfinished, capacity, in_queue, __init__. simpl.
  destruct (0 <? max_queue_size) eqn:E; simpl; repeat split; lia.
Qed.

Lemma run_sound calls w : sound w -> sound (run calls w).
Proof.
  induction calls as [|c calls IH] using rev_ind; intros H; [exact H|].
  rewrite run_snoc. apply after_sound. auto.
Qed.

Lemma run_capacity calls w : capacity (run calls w) = capacity w.
Proof.
  induction calls as [|c calls IH] using rev_ind; [reflexivity|].
  rewrite run_snoc, <- IH.
  destruct (is_registry_call c) eqn:Er; [destruct c; try discriminate; reflexivity|].
  destruct (is_stop_call c) eqn:Es; [destruct c; try discriminate; reflexivity|].
  destruct (after_same_setup c (run calls w) Er Es) as (_&_&_&H&_). exact H.
Qed.

(** One round of [task_done] in a world that satisfies the invariant. *)
Lemma task_done_round_sound w :
  sound w ->
  exists w1,
    try_except
      (events_task_done >>
       modify (set_mgr (fun m =>
         if 0 <? _total_events_queued m then set_queued (fun c => c - 1) m else m)))
      is_Exception
      (fun _ => log (LogDebug "task_done called too many times or when queue not tracked"))
      w = (w1, Return tt) /\
    sound w1 /\
    queued w1 = Z.max 0 (queued w - 1) /\
    in_queue w1 = in_queue w /\ received w1 = received w /\ pushed w1 = pushed w /\
    env w1 = env w.
Proof.
  intros (Hq&Hu&Hc). unfold try_except, events_task_done, bind, gets, raise, modify, log.
  fold (unfinished w).
  destruct (Z.ltb_spec (unfinished w - 1) 0) as [Hlt|Hge]; simpl.
  - eexists. split; [reflexivity|].
    unfold sound, queued, unfinished, capacity, in_queue, received, pushed in *. simpl.
    repeat split; auto; lia.
  - unfold queued in Hq.
    assert (Hpos : (0 <? _total_events_queued (mgr w)) = true) by (apply Z.ltb_lt; lia).
    unfold set_mgr. simpl. rewrite Hpos. eexists. split; [reflexivity|].
    unfold sound, queued, unfinished, capacity, in_queue, received, pushed in *. simpl.
    repeat split; auto; lia.
Qed.

Lemma task_done_sound n w :
  sound w ->
  exists w1,
    task_done n w = (w1, Return tt) /\
    sound w1 /\
    queued w1 = Z.max 0 (queued w - Z.max 0 n) /\
    in_queue w1 = in_queue w /\ received w1 = received w /\ pushed w1 = pushed w /\
    env w1 = env w.
Proof.
  unfold task_done, for_range. replace (Z.max 0 n) with (Z.of_nat (Z.to_nat n)) by lia.
  generalize (Z.to_nat n) as k. clear n. intros k. revert w.
  induction k as [|k IH]; intros w Hs.
  - exists w. simpl. destruct Hs as (Hq&Hu&Hc). repeat split; auto. lia.
  - cbn [replicate for_each].
    destruct (task_done_round_sound w Hs) as (w1&E&Hs1&Hq1&Hi1&Hr1&Hp1&He1).
    erewrite bind_Return by exact E.
    destruct (IH w1 Hs1) as (w2&E2&Hs2&Hq2&Hi2&Hr2&Hp2&He2).
    exists w2. split; [exact E2|]. repeat split; try congruence.
    + apply Hs2.
    + apply Hs2.
    + apply Hs2.
    + rewrite Hq2, Hq1. lia.
Qed.

(** ** Further properties of the manager *)

(** X1.  A bounded queue never holds more than its capacity: after any
    sequence of calls on a manager built with [max_queue_size > 0], whatever
    the other threads do, [get_queue_size] returns at most [max_queue_size]. *)
Theorem queue_within_capacity calls max_queue_size workers others :
  0 < max_queue_size ->
  exists n,
    snd (get_queue_size (run calls (fresh max_queue_size workers others))) = Return n /\
    0 <= n <= max_queue_size.
Proof.
  intros Hpos. eexists. split; [reflexivity|].
  pose proof (run_sound calls _ (fresh_sound max_queue_size workers others)) as (_&_&Hc).
  pose proof (run_capacity calls (fresh max_queue_size workers others)) as Hcap.
  assert (Hf : capacity (fresh max_queue_size workers others) = max_queue_size).
  { unfold capacity, fresh, __init__. simpl.
    destruct (Z.ltb_spec 0 max_queue_size); [reflexivity | lia]. }
  rewrite Hf in Hcap. rewrite Hcap in Hc. specialize (Hc Hpos).
  unfold Queue.qsize. fold (in_queue (run calls (fresh max_queue_size workers others))).
  lia.
Qed.

Lemma queue_within_capacity_witness :
  exists n,
    snd (get_queue_size
           (run [Call_add_event (sample 1 "T1") false None;
                 Call_add_event (sample 2 "T2") false None;
                 Call_add_event (sample 3 "T3") false None]
              (fresh 2 None [Quiet; ConsumerGets]))) = Return n /\
    0 <= n <= 2.
Proof. apply (queue_within_capacity _ 2 None [Quiet; ConsumerGets]). lia. Defined.

(** X2.  After any sequence of calls on a manager just built, [join]
    returns at once exactly when [get_total_queued] is 0, and otherwise
    blocks; in both cases it changes nothing. *)
Theorem join_returns_when_nothing_queued calls max_queue_size workers others :
  let w := run calls (fresh max_queue_size workers others) in
  join w = (w, if queued w =? 0 then Return tt else Hang).
Proof.
  intros w.
  pose proof (run_sound calls _ (fresh_sound max_queue_size workers others)) as (Hq&_).
  fold w in Hq. unfold join, try_except, events_join, bind, gets. fold (unfinished w).
  rewrite Hq. destruct (unfinished w =? 0); reflexivity.
Qed.

(** X3.  Acknowledging too much is tolerated: after any sequence of calls on
    a manager just built, [task_done(n)] returns without raising for every
    [n]; the queued counter goes down by [n] but not below zero; the items
    in the queue and the other counters are untouched. *)
Theorem task_done_tolerates_excess n calls max_queue_size workers others :
  let w := run calls (fresh max_queue_size workers others) in
  exists w',
    task_done n w = (w', Return tt) /\
    queued w' = Z.max 0 (queued w - Z.max 0 n) /\
    in_queue w' = in_queue w /\
    received w' = received w /\
    pushed w' = pushed w.
Proof.
  intros w.
  destruct (task_done_sound n w) as (w'&E&_&Hq&Hi&Hr&Hp&_).
  { apply run_sound, fresh_sound. }
  exists w'. auto.
Qed.

Lemma after_stopped c w :
  _stopped (mgr (after c w)) = _stopped (mgr w) || is_stop_call c.
Proof.
  destruct (is_stop_call c) eqn:Es.
  - destruct c; try discriminate. simpl. rewrite orb_true_r. reflexivity.
  - rewrite orb_false_r. destruct (is_registry_call c) eqn:Er.
    + destruct c; try discriminate; reflexivity.
    + destruct (after_same_setup c w Er Es) as (H&_). exact H.
Qed.

(** X4.  [stop] is a flag and nothing more: after any sequence of calls on a
    manager just built, [stopped] returns true exactly when [stop] was among
    the calls (nothing else sets the flag, nothing clears it), and [stop]
    itself leaves the queue, the counters and the registries as they are. *)
Theorem stopped_iff_stop_called calls max_queue_size workers others :
  snd (stopped (run calls (fresh max_queue_size workers others))) =
    Return (existsb is_stop_call calls) /\
  (forall w,
     in_queue (after Call_stop w) = in_queue w /\
     queued (after Call_stop w) = queued w /\
     received (after Call_stop w) = received w /\
     pushed (after Call_stop w) = pushed w /\
     _push_event_callbacks (mgr (after Call_stop w)) = _push_event_callbacks (mgr w) /\
     _push_batch_callbacks (mgr (after Call_stop w)) = _push_batch_callbacks (mgr w)).
Proof.
  split; [|intros w; repeat split].
  unfold stopped, gets. simpl. f_equal.
  induction calls as [|c calls IH] using rev_ind; [reflexivity|].
  rewrite run_snoc, after_stopped, IH, existsb_app. simpl.
  rewrite orb_false_r. reflexivity.
Qed.

Lemma after_registries c w :
  is_registry_call c = false ->
  _push_event_callbacks (mgr (after c w)) = _push_event_callbacks (mgr w) /\
  _push_batch_callbacks (mgr (after c w)) = _push_batch_callbacks (mgr w).
Proof.
  intros Er. destruct (is_stop_call c) eqn:Es.
  - destruct c; try discriminate. split; reflexivity.
  - destruct (after_same_setup c w Er Es) as (_&H1&H2&_). auto.
Qed.

(** X5.  Who is registered depends on the registering and unregistering
    calls alone: after any sequence of calls the two registries are what the
    calls that register or unregister, taken by themselves, would have left.
    In particular no push removes a callback, not even one that raised. *)
Theorem registries_follow_registration calls w :
  let only := filter (fun c => is_registry_call c = true) calls in
  _push_event_callbacks (mgr (run calls w)) = _push_event_callbacks (mgr (run only w)) /\
  _push_batch_callbacks (mgr (run calls w)) = _push_batch_callbacks (mgr (run only w)).
Proof.
  simpl. induction calls as [|c calls IH] using rev_ind; [split; reflexivity|].
  rewrite filter_app, run_snoc. destruct IH as [IH1 IH2].
  destruct (is_registry_call c) eqn:Er.
  - rewrite filter_cons_True by exact Er. rewrite filter_nil, run_snoc.
    destruct c; try discriminate; simpl; rewrite ?IH1, ?IH2; split; reflexivity.
  - rewrite filter_cons_False by (rewrite Er; discriminate).
    rewrite filter_nil, app_nil_r.
    destruct (after_registries c (run calls w) Er) as [H1 H2].
    rewrite H1, H2. auto.
Qed.

Lemma run_same_push calls w :
  forallb (fun c => negb (is_push_call c)) calls = true -> same_push w (run calls w).
Proof.
  induction calls as [|c calls IH] using rev_ind; intros H; [apply frame_refl|].
  rewrite forallb_app in H. apply andb_prop in H as [H1 H2]. simpl in H2.
  rewrite run_snoc. eapply frame_trans; [apply IH; exact H1|].
  apply after_same_push. destruct (is_push_call c); [discriminate | reflexivity].
Qed.

Lemma run_same_queue calls w :
  forallb (fun c => negb (is_pull_call c)) calls = true -> same_queue w (run calls w).
Proof.
  induction calls as [|c calls IH] using rev_ind; intros H; [apply frame_refl|].
  rewrite forallb_app in H. apply andb_prop in H as [H1 H2]. simpl in H2.
  rewrite run_snoc. eapply frame_trans; [apply IH; exact H1|].
  apply after_same_queue. destruct (is_pull_call c); [discriminate | reflexivity].
Qed.

(** X6.  Enqueued events are never handed to callbacks: a sequence of calls
    without [push_event], [push_events_batch] and without the pool at work
    calls no callback, submits nothing to the pool, and leaves the pushed
    counter and the work waiting in the pool as they are. *)
Theorem without_push_nothing_delivered calls w :
  forallb (fun c => negb (is_push_call c)) calls = true ->
  deliveries (trace (run calls w)) = deliveries (trace w) /\
  pushed (run calls w) = pushed w /\
  pool_work (run calls w) = pool_work w.
Proof.
  intros H. destruct (run_same_push calls w H) as (Hp&Hw&Hd). auto.
Qed.

Lemma without_push_nothing_delivered_witness :
  let w := run [Call_register_push_callback (returning 1)] (fresh 0 None []) in
  let calls := [Call_add_events_batch [sample 1 "T1"; sample 2 "T2"] false;
                Call_get_event (Some 50); Call_task_done 1; Call_stop] in
  deliveries (trace (run calls w)) = deliveries (trace w) /\
  pushed (run calls w) = pushed w /\
  pool_work (run calls w) = pool_work w.
Proof.
  intros w calls. apply (without_push_nothing_delivered calls w). reflexivity.
Defined.

(** X7.  Pushed events are never queued: a sequence of calls without
    [add_event], [add_events_batch], [get_event], [get_events_batch],
    [task_done] and [join] leaves the queue and the queued counter as they
    are and waits for no other thread. *)
Theorem without_pull_queue_untouched calls w :
  forallb (fun c => negb (is_pull_call c)) calls = true ->
  events (mgr (run calls w)) = events (mgr w) /\
  queued (run calls w) = queued w /\
  env (run calls w) = env w.
Proof.
  intros H. destruct (run_same_queue calls w H) as (He&Hq&Hv). auto.
Qed.

Lemma without_pull_queue_untouched_witness :
  let w := run [Call_add_event (sample 0 "T0") false None;
                Call_register_push_callback (raising 1 (UserError "boom"))]
             (fresh 0 None [Quiet]) in
  let calls := [Call_push_event (sample 1 "T1");
                Call_push_events_batch [sample 2 "T2"; sample 3 "T3"];
                Call_unregister_push_callback (returning 1); Call_stop] in
  events (mgr (run calls w)) = events (mgr w) /\
  queued (run calls w) = queued w /\
  env (run calls w) = env w.
Proof.
  intros w calls. apply (without_pull_queue_untouched calls w). reflexivity.
Defined.

(** ** The registries *)

Lemma remove_first_unregistered cb l :
  unregistered cb l = true -> remove_first cb l = l.
Proof.
  unfold unregistered. induction l as [|c l IH]; [reflexivity|].
  simpl. intros H. apply andb_prop in H as [H1 H2].
  destruct (Nat.eqb (cb_id c) (cb_id cb)); [discriminate|].
  rewrite IH by exact H2. reflexivity.
Qed.

Lemma remove_first_middle cb pre c post :
  unregistered cb pre = true -> cb_id c = cb_id cb ->
  remove_first cb (pre ++ c :: post) = pre ++ post.
Proof.
  unfold unregistered. intros Hpre Hc. induction pre as [|x pre IH]; simpl.
  - rewrite Hc, Nat.eqb_refl. reflexivity.
  - simpl in Hpre. apply andb_prop in Hpre as [H1 H2].
    destruct (Nat.eqb (cb_id x) (cb_id cb)); [discriminate|].
    rewrite IH by exact H2. reflexivity.
Qed.

(** X8.  Unregistering a callback that is not registered is not an error and
    changes nothing, for the per-event registry and for the batch registry. *)
Theorem unregister_unregistered_is_noop cb w :
  (unregistered cb (_push_event_callbacks (mgr w)) = true ->
   unregister_push_callback cb w = (w, Return tt)) /\
  (unregistered cb (_push_batch_callbacks (mgr w)) = true ->
   unregister_push_batch_callback cb w = (w, Return tt)).
Proof.
  split; intros H.
  - unfold unregister_push_callback, modify, set_mgr, set_event_callbacks.
    rewrite (remove_first_unregistered cb _ H). destruct w as [[] ? ?]. reflexivity.
  - unfold unregister_push_batch_callback, modify, set_mgr, set_batch_callbacks.
    rewrite (remove_first_unregistered cb _ H). destruct w as [[] ? ?]. reflexivity.
Qed.



(** X10.  Registering a callback that is not yet registered and then
    unregistering it gives back the registry as it was, for the per-event
    registry and for the batch registry. *)
Theorem register_then_unregister cb w :
  (unregistered cb (_push_event_callbacks (mgr w)) = true ->
   run [Call_register_push_callback cb; Call_unregister_push_callback cb] w = w) /\
  (unregistered cb (_push_batch_callbacks (mgr w)) = true ->
   run [Call_register_push_batch_callback cb; Call_unregister_push_batch_callback cb] w = w).
Proof.
  split; intros H; unfold run; simpl;
    unfold set_mgr, set_event_callbacks, set_batch_callbacks; simpl.
  - rewrite (remove_first_middle cb _ cb [] H eq_refl), app_nil_r.
    destruct w as [[] ? ?]. reflexivity.
  - rewrite (remove_first_middle cb _ cb [] H eq_refl), app_nil_r.
    destruct w as [[] ? ?]. reflexivity.
Qed.

Lemma unregister_unregistered_is_noop_witness :
  let w := run [Call_register_push_callback (returning 1)] (fresh 0 None []) in
  unregister_push_callback (returning 2) w = (w, Return tt).
Proof.
  intros w. apply (proj1 (unregister_unregistered_is_noop (returning 2) w)). reflexivity.
Defined.

Lemma register_then_unregister_witness :
  let w := run [Call_register_push_callback (returning 1)] (fresh 0 None []) in
  run [Call_register_push_callback (returning 2);
       Call_unregister_push_callback (returning 2)] w = w.
Proof.
  intros w. apply (proj1 (register_then_unregister (returning 2) w)). reflexivity.
Defined.

(** ** Adding to the queue: room, no room, no bound *)

Lemma events_put_room item block timeout w :
  Queue.is_full (events (mgr w)) = false ->
  (forall t, timeout = Some t -> 0 <= t) ->
  events_put item block timeout w = (enqueued item w, Return tt).
Proof.
  unfold Queue.is_full. intros Hroom Ht. unfold events_put, bind, gets.
  destruct (0 <? Queue.maxsize (events (mgr w))) eqn:Em; [|reflexivity].
  simpl in Hroom. rewrite Hroom.
  destruct block; cbn [negb]; [|reflexivity].
  destruct timeout as [t|].
  - specialize (Ht t eq_refl). replace (t <? 0) with false by lia. reflexivity.
  - unfold await_not_full, enqueued, modify, set_mgr, set_events.
    destruct w as [[q ? ? ? ? ? ? ?] [|ev evs] tr]; simpl in *; rewrite Hroom;
      reflexivity.
Qed.

(** X11.  When the queue has room, [add_event] with a timeout that is [None]
    or not negative returns at once: the event is the newest item of the
    queue, received and queued have gone up by one, nothing is logged and
    no other thread is waited for. *)
Theorem add_event_with_room event block timeout w :
  Queue.is_full (events (mgr w)) = false ->
  (forall t, timeout = Some t -> 0 <= t) ->
  exists w',
    add_event event block timeout w = (w', Return tt) /\
    in_queue w' = in_queue w ++ [event] /\
    received w' = received w + 1 /\
    queued w' = queued w + 1 /\
    trace w' = trace w /\
    env w' = env w.
Proof.
  intros Hroom Ht. exists (added event w). unfold add_event, try_except.
  assert (E : (if block then events_put event true timeout else events_put_nowait event) w
              = (enqueued event w, Return tt)).
  { destruct block; [apply events_put_room; assumption|].
    apply events_put_room; [assumption | discriminate]. }
  erewrite bind_Return by exact E. split; [reflexivity|].
  unfold added, enqueued, in_queue, received, queued. simpl. repeat split; lia.
Qed.

Lemma add_event_with_room_witness :
  let w := run [Call_add_event (sample 1 "T1") false None] (fresh 2 None []) in
  exists w',
    add_event (sample 2 "T2") true (Some 0) w = (w', Return tt) /\
    in_queue w' = in_queue w ++ [sample 2 "T2"] /\
    received w' = received w + 1 /\
    queued w' = queued w + 1 /\
    trace w' = trace w /\
    env w' = env w.
Proof.
  intros w. apply (add_event_with_room (sample 2 "T2") true (Some 0) w).
  - reflexivity.
  - intros t [= <-]. lia.
Defined.

(** X12.  A non-blocking [add_event] on a bounded queue that is exactly
    full logs a warning and waits once, for one second.  If a consumer takes
    an item meanwhile, the event is enqueued behind the items left and
    counted; if not, [queue.Full] is raised and the queue and the counters
    are as before. *)
Theorem add_event_when_full event w :
  0 < capacity w ->
  Z.of_nat (length (in_queue w)) = capacity w ->
  let warning := LogWarning "Queue full - blocking put for event" in
  match env w with
  | ConsumerGets :: _ =>
      add_event event false None w = (added event (taken 1 (warned warning w)), Return tt)
  | _ =>
      add_event event false None w = (warned warning w, Raise QueueFull)
  end.
Proof.
  unfold capacity, in_queue. intros Hpos Hfull. cbv zeta.
  destruct w as [[[items maxsize unf] ecbs bcbs ex r p qd st] ev tr]. simpl in *.
  assert (Hm : (0 <? maxsize) = true) by (apply Z.ltb_lt; lia).
  assert (Hf : (maxsize <=? Z.of_nat (length items)) = true) by (apply Z.leb_le; lia).
  unfold add_event, try_except, events_put_nowait, events_put, bind, gets, raise, ret,
    log, modify, await_not_full, bump_received_queued, Queue.qsize. simpl.
  rewrite Hm, Hf. simpl. rewrite Hm. unfold Queue.qsize. simpl. rewrite Hf. simpl.
  destruct ev as [|e evs]; simpl.
  - unfold Queue.qsize. simpl. rewrite Hf. reflexivity.
  - unfold Queue.qsize. simpl. rewrite Hf. destruct e; simpl; try reflexivity.
    destruct items as [|x rest]; [simpl in Hfull; lia|].
    assert (Hroom : (maxsize <=? Z.of_nat (length rest)) = false).
    { apply Z.leb_gt. simpl in Hfull. lia. }
    destruct evs as [|e' evs']; simpl; unfold Queue.qsize; simpl; rewrite Hroom;
      reflexivity.
Qed.

Lemma add_event_when_full_witness :
  let w := run [Call_add_event (sample 1 "T1") false None] (fresh 1 None [ConsumerGets]) in
  add_event (sample 2 "T2") false None w =
  (added (sample 2 "T2")
     (taken 1 (warned (LogWarning "Queue full - blocking put for event") w)),
   Return tt).
Proof.
  intros w. apply (add_event_when_full (sample 2 "T2") w); reflexivity.
Defined.

Lemma add_event_unbounded event block w :
  capacity w <= 0 -> add_event event block None w = (added event w, Return tt).
Proof.
  intros Hcap. unfold add_event, try_except.
  assert (Hroom : Queue.is_full (events (mgr w)) = false).
  { unfold Queue.is_full. unfold capacity in Hcap.
    replace (0 <? Queue.maxsize (events (mgr w))) with false by lia. reflexivity. }
  assert (E : (if block then events_put event true None else events_put_nowait event) w
              = (enqueued event w, Return tt)).
  { destruct block; apply events_put_room; auto; discriminate. }
  erewrite bind_Return by exact E. reflexivity.
Qed.

Lemma added_all_facts items w :
  in_queue (added_all items w) = in_queue w ++ items /\
  received (added_all items w) = received w + Z.of_nat (length items) /\
  queued (added_all items w) = queued w + Z.of_nat (length items) /\
  unfinished (added_all items w) = unfinished w + Z.of_nat (length items) /\
  capacity (added_all items w) = capacity w /\
  trace (added_all items w) = trace w /\
  env (added_all items w) = env w.
Proof.
  unfold added_all. revert w. induction items as [|e items IH]; intros w; simpl.
  - rewrite app_nil_r. repeat split; lia.
  - destruct (IH (added e w)) as (H1&H2&H3&H4&H5&H6&H7).
    rewrite H1, H2, H3, H4, H5, H6, H7.
    unfold added, enqueued, in_queue, received, queued, unfinished, capacity. simpl.
    rewrite <- app_assoc. repeat split; lia.
Qed.

Lemma add_events_batch_unbounded items block w :
  capacity w <= 0 -> add_events_batch items block w = (added_all items w, Return tt).
Proof.
  unfold add_events_batch, added_all. revert w.
  induction items as [|e items IH]; intros w Hcap; [reflexivity|].
  cbn [for_each foldl].
  assert (E : try_except (add_event e block None) is_Exception
                (fun _ =>
                   log (LogException
                          "Error adding event in batch, retrying with blocking put") >>
                   add_event e true (Some 1000)) w = (added e w, Return tt)).
  { unfold try_except. rewrite add_event_unbounded by exact Hcap. reflexivity. }
  erewrite bind_Return by exact E. apply IH. exact Hcap.
Qed.

(** X13.  On a queue without bound [add_events_batch] never fails, waits or
    logs: it returns with the events behind the items that were queued, in
    the order of the list, and with received and queued up by the length of
    the list. *)
Theorem add_events_batch_without_bound items block w :
  capacity w <= 0 ->
  exists w',
    add_events_batch items block w = (w', Return tt) /\
    in_queue w' = in_queue w ++ items /\
    received w' = received w + Z.of_nat (length items) /\
    queued w' = queued w + Z.of_nat (length items) /\
    trace w' = trace w /\
    env w' = env w.
Proof.
  intros Hcap. exists (added_all items w).
  destruct (added_all_facts items w) as (H1&H2&H3&_&_&H6&H7).
  split; [apply add_events_batch_unbounded; exact Hcap|]. auto.
Qed.

Lemma add_events_batch_without_bound_witness :
  let w := fresh 0 None [] in
  let items := [sample 1 "T1"; sample 2 "T2"; sample 3 "T3"] in
  exists w',
    add_events_batch items false w = (w', Return tt) /\
    in_queue w' = in_queue w ++ items /\
    received w' = received w + Z.of_nat (length items) /\
    queued w' = queued w + Z.of_nat (length items) /\
    trace w' = trace w /\
    env w' = env w.
Proof.
  intros w items. apply (add_events_batch_without_bound items false w). reflexivity.
Defined.

Lemma get_events_batch_nonempty batch_size timeout w x rest :
  in_queue w = x :: rest -> 1 <= batch_size ->
  (forall t, timeout = Some t -> 0 <= t) ->
  get_events_batch batch_size timeout w =
  (taken (Z.to_nat batch_size) w, Return (take (Z.to_nat batch_size) (in_queue w))).
Proof.
  unfold in_queue. intros Hq Hb Ht.
  unfold get_events_batch, bind. rewrite (get_event_spec timeout w Ht).
  unfold available, waited. rewrite Hq.
  rewrite drain_nowait_spec, taken_taken.
  replace (Queue.items (events (mgr (taken 1 w)))) with rest
    by (unfold taken; simpl; rewrite Hq; reflexivity).
  destruct (Z.to_nat batch_size) as [|n] eqn:En; [lia|].
  replace (Z.to_nat (batch_size - 1)) with n by lia. reflexivity.
Qed.

(** X14.  First in, first out: on a queue without bound, what
    [get_events_batch] returns right after [add_events_batch] is the first
    [batch_size] of the items that were queued followed by the events added,
    in that order; the others stay in the queue.  On an empty queue a batch
    that fits comes back whole. *)
Theorem batch_added_comes_back_in_order items block batch_size timeout w :
  capacity w <= 0 -> in_queue w ++ items <> [] -> 1 <= batch_size ->
  (forall t, timeout = Some t -> 0 <= t) ->
  let w1 := fst (add_events_batch items block w) in
  let r := get_events_batch batch_size timeout w1 in
  snd r = Return (take (Z.to_nat batch_size) (in_queue w ++ items)) /\
  in_queue (fst r) = drop (Z.to_nat batch_size) (in_queue w ++ items) /\
  (in_queue w = [] -> Z.of_nat (length items) <= batch_size ->
   snd r = Return items /\ in_queue (fst r) = []).
Proof.
  intros Hcap Hne Hb Ht. cbv zeta.
  rewrite (add_events_batch_unbounded items block w Hcap). cbn [fst].
  destruct (added_all_facts items w) as (Hq&_).
  destruct (in_queue w ++ items) as [|x rest] eqn:E; [congruence|].
  rewrite (get_events_batch_nonempty batch_size timeout _ x rest Hq Hb Ht).
  cbn [fst snd]. rewrite Hq.
  assert (Hd : in_queue (taken (Z.to_nat batch_size) (added_all items w))
               = drop (Z.to_nat batch_size) (x :: rest)).
  { unfold taken, in_queue in *. simpl. rewrite Hq. reflexivity. }
  split; [reflexivity|]. split; [exact Hd|].
  intros Hempty Hlen. rewrite Hempty in E. simpl in E. subst items.
  rewrite Hd. rewrite take_ge, drop_ge by lia. split; reflexivity.
Qed.

Lemma batch_added_comes_back_in_order_witness :
  let w := fresh 0 None [] in
  let items := [sample 1 "T1"; sample 2 "T2"; sample 3 "T3"] in
  let w1 := fst (add_events_batch items false w) in
  let r := get_events_batch 10 (Some 1000) w1 in
  snd r = Return (take (Z.to_nat 10) (in_queue w ++ items)) /\
  in_queue (fst r) = drop (Z.to_nat 10) (in_queue w ++ items) /\
  (in_queue w = [] -> Z.of_nat (length items) <= 10 ->
   snd r = Return items /\ in_queue (fst r) = []).
Proof.
  intros w items.
  apply (batch_added_comes_back_in_order items false 10 (Some 1000) w).
  - reflexivity.
  - discriminate.
  - lia.
  - intros t [= <-]. lia.
Defined.

(** ** The sink: what is stored stays, what is stored twice is ignored *)

Lemma conflicts_self r : Sink.conflicts r r = true.
Proof. unfold Sink.conflicts. rewrite Z.eqb_refl. reflexivity. Qed.

Lemma insert_or_ignore_grows table r :
  exists new, Sink.insert_or_ignore table r = table ++ new /\ sublist new [r].
Proof.
  unfold Sink.insert_or_ignore. destruct (existsb (Sink.conflicts r) table).
  - exists []. rewrite app_nil_r. split; [reflexivity|]. apply sublist_nil_l.
  - exists [r]. split; reflexivity.
Qed.

Lemma executemany_grows table rows :
  exists new, Sink.executemany table rows = table ++ new /\ sublist new rows.
Proof.
  unfold Sink.executemany. revert table. induction rows as [|r rows IH]; intros table.
  - exists []. simpl. rewrite app_nil_r. split; [reflexivity | constructor].
  - simpl. destruct (insert_or_ignore_grows table r) as (n1&E1&S1).
    destruct (IH (Sink.insert_or_ignore table r)) as (n2&E2&S2).
    exists (n1 ++ n2). rewrite E2, E1, app_assoc. split; [reflexivity|].
    change (r :: rows) with ([r] ++ rows). apply sublist_app; assumption.
Qed.

Lemma existsb_app_l {A} (f : A -> bool) l k :
  existsb f l = true -> existsb f (l ++ k) = true.
Proof. intros H. rewrite existsb_app, H. reflexivity. Qed.

Lemma executemany_ignores table rows :
  (forall r, In r rows -> existsb (Sink.conflicts r) table = true) ->
  Sink.executemany table rows = table.
Proof.
  unfold Sink.executemany. induction rows as [|r rows IH]; intros H; [reflexivity|].
  simpl. unfold Sink.insert_or_ignore at 2. rewrite (H r) by (left; reflexivity).
  apply IH. intros r' Hr'. apply H. right. exact Hr'.
Qed.

Lemma executemany_covers table rows r :
  In r rows -> existsb (Sink.conflicts r) (Sink.executemany table rows) = true.
Proof.
  unfold Sink.executemany. revert table. induction rows as [|x rows IH]; intros table Hin.
  - destruct Hin.
  - simpl. destruct Hin as [->|Hin]; [|apply IH; exact Hin].
    fold (Sink.executemany (Sink.insert_or_ignore table r) rows).
    destruct (executemany_grows (Sink.insert_or_ignore table r) rows) as (new&->&_).
    apply existsb_app_l. unfold Sink.insert_or_ignore.
    destruct (existsb (Sink.conflicts r) table) eqn:E; [exact E|].
    rewrite existsb_app. simpl. rewrite conflicts_self, orb_true_r. reflexivity.
Qed.

(** X15.  Storing a batch a second time changes nothing: for every table and
    every batch, [_bulk_insert] of the batch into the table that already
    took it leaves that table as it is, whatever the clock reads. *)
Theorem bulk_insert_twice_is_once now now' events table :
  Sink._bulk_insert now' events (Sink._bulk_insert now events table)
  = Sink._bulk_insert now events table.
Proof.
  unfold Sink._bulk_insert. destruct (nonempty events); simpl; [|reflexivity].
  apply executemany_ignores. intros r Hr. apply in_map_iff in Hr as (e&<-&He).
  change (Sink.conflicts (Sink.row_of now' e)) with (Sink.conflicts (Sink.row_of now e)).
  apply executemany_covers.
  apply in_map. exact He.
Qed.



(** X17.  [_bulk_insert] only appends: the rows stored before stay, in
    their place; the rows added are rows of the batch, in the order of the
    batch; so the stored count never goes down and goes up by at most the
    size of the batch. *)
Theorem bulk_insert_only_appends now events table :
  exists new,
    Sink._bulk_insert now events table = table ++ new /\
    sublist new (map (Sink.row_of now) events) /\
    Sink.count table <= Sink.count (Sink._bulk_insert now events table)
      <= Sink.count table + Z.of_nat (length events).
Proof.
  assert (H : exists new, Sink._bulk_insert now events table = table ++ new /\
                sublist new (map (Sink.row_of now) events)).
  { unfold Sink._bulk_insert. destruct (nonempty events); simpl.
    - apply executemany_grows.
    - exists []. rewrite app_nil_r. split; [reflexivity | apply sublist_nil_l]. }
  destruct H as (new&E&S). exists new. split; [exact E|]. split; [exact S|].
  rewrite E. unfold Sink.count. rewrite length_app.
  apply sublist_length in S. rewrite length_map in S. lia.
Qed.

Lemma insert_or_ignore_unique table r :
  NoDup (stored_event_ids table) -> NoDup (stored_ids table) ->
  NoDup (stored_event_ids (Sink.insert_or_ignore table r)) /\
  NoDup (stored_ids (Sink.insert_or_ignore table r)).
Proof.
  intros Hi Ht. unfold Sink.insert_or_ignore.
  destruct (existsb (Sink.conflicts r) table) eqn:E; [split; assumption|].
  assert (Hno : forall r', r' ∈ table -> Sink.conflicts r r' = false).
  { intros r' Hr'. destruct (Sink.conflicts r r') eqn:Ec; [|reflexivity].
    assert (existsb (Sink.conflicts r) table = true)
      by (apply existsb_exists; exists r'; split; [apply list_elem_of_In|]; assumption).
    congruence. }
  unfold stored_event_ids, stored_ids. rewrite !fmap_app. simpl. split.
  - apply NoDup_app. split; [exact Hi|]. split; [|apply NoDup_singleton].
    intros x Hx Hx'. apply list_elem_of_singleton in Hx'. subst x.
    apply list_elem_of_fmap in Hx as (r'&Heq&Hr'). specialize (Hno r' Hr').
    unfold Sink.conflicts in Hno. apply orb_false_elim in Hno as [Hno _].
    apply Z.eqb_neq in Hno. congruence.
  - apply NoDup_app. split; [exact Ht|]. split; [|apply NoDup_singleton].
    intros x Hx Hx'. apply list_elem_of_singleton in Hx'. subst x.
    apply list_elem_of_fmap in Hx as (r'&Heq&Hr'). specialize (Hno r' Hr').
    unfold Sink.conflicts in Hno. apply orb_false_elim in Hno as [_ Hno].
    apply bool_decide_eq_false_1 in Hno. congruence.
Qed.

Lemma executemany_unique table rows :
  NoDup (stored_event_ids table) -> NoDup (stored_ids table) ->
  NoDup (stored_event_ids (Sink.executemany table rows)) /\
  NoDup (stored_ids (Sink.executemany table rows)).
Proof.
  unfold Sink.executemany. revert table.
  induction rows as [|r rows IH]; intros table Hi Ht; [split; assumption|].
  simpl. destruct (insert_or_ignore_unique table r Hi Ht) as [Hi' Ht'].
  apply IH; assumption.
Qed.

(** X18.  The keys of the table hold: after any series of [_bulk_insert]s
    on the table as [_init_database] leaves it, whatever the batches, no two
    rows carry the same [event_id] and no two rows the same
    [transaction_id]. *)
Theorem stored_keys_unique batches :
  NoDup (stored_event_ids (after_inserts batches)) /\
  NoDup (stored_ids (after_inserts batches)).
Proof.
  unfold after_inserts.
  induction batches as [|b batches IH] using rev_ind.
  - split; constructor.
  - rewrite foldl_app. simpl. destruct IH as [Hi Ht].
    unfold Sink._bulk_insert. destruct (nonempty (snd b)); simpl.
    + apply executemany_unique; assumption.
    + split; assumption.
Qed.

(** ** The push consumer: nothing lost, nothing stored twice *)

(** What holds after any number of deliveries, for any batch size: the
    flushed batches followed by the pending one are the events delivered;
    no flushed batch is empty; what was flushed is what was counted; and the
    table holds the distinct [transaction_id]s of what was flushed. *)
Lemma feed_invariant_any batch_size now events :
  keyed events ->
  let c := ConsumerPush.feed now events (ConsumerPush.__init__ batch_size) in
  ConsumerPush.batch_size c = batch_size /\
  concat (ConsumerPush.bulk_insert_calls c) ++ ConsumerPush.event_batch c = events /\
  Forall (fun l => l <> []) (ConsumerPush.bulk_insert_calls c) /\
  ConsumerPush.events_processed c =
    Z.of_nat (length (concat (ConsumerPush.bulk_insert_calls c))) /\
  made_from events (ConsumerPush.db c) /\
  NoDup (stored_ids (ConsumerPush.db c)) /\
  list_to_set (stored_ids (ConsumerPush.db c)) =@{gset string}
    transaction_ids (concat (ConsumerPush.bulk_insert_calls c)).
Proof.
  intros Hk.
  assert (G : forall done, (exists rest, events = done ++ rest) ->
    let c := ConsumerPush.feed now done (ConsumerPush.__init__ batch_size) in
    ConsumerPush.batch_size c = batch_size /\
    concat (ConsumerPush.bulk_insert_calls c) ++ ConsumerPush.event_batch c = done /\
    Forall (fun l => l <> []) (ConsumerPush.bulk_insert_calls c) /\
    ConsumerPush.events_processed c =
      Z.of_nat (length (concat (ConsumerPush.bulk_insert_calls c))) /\
    made_from events (ConsumerPush.db c) /\
    NoDup (stored_ids (ConsumerPush.db c)) /\
    list_to_set (stored_ids (ConsumerPush.db c)) =@{gset string}
      transaction_ids (concat (ConsumerPush.bulk_insert_calls c))).
  { intros done. induction done as [|e done IH] using rev_ind; intros (rest&Hrest).
    - simpl. repeat split; auto.
      + intros r Hr. inversion Hr.
      + constructor.
    - rewrite feed_snoc.
      destruct IH as (Hbs&Hcat&Hne&Hproc&Hm&Hn&Hs).
      { exists ([e] ++ rest). rewrite Hrest, <- app_assoc. reflexivity. }
      set (c := ConsumerPush.feed now done (ConsumerPush.__init__ batch_size)) in *.
      unfold ConsumerPush.on_event_received.
      cbn [ConsumerPush.batch_size ConsumerPush.event_batch].
      destruct (ConsumerPush.batch_size c <=?
                Z.of_nat (length (ConsumerPush.event_batch c ++ [e]))).
      + unfold ConsumerPush._process_batch, ConsumerPush._bulk_insert. simpl.
        destruct (_bulk_insert_keeps events now (ConsumerPush.event_batch c ++ [e])
                    (ConsumerPush.db c) Hk Hm Hn) as (Hm'&Hn'&Hs').
        { intros x Hx. rewrite Hrest, <- Hcat.
          apply elem_of_app in Hx as [Hx|Hx].
          - apply elem_of_app. left. apply elem_of_app. left. apply elem_of_app.
            right. exact Hx.
          - apply elem_of_app. left. apply elem_of_app. right. exact Hx. }
        rewrite concat_app. simpl. rewrite !app_nil_r.
        split; [exact Hbs|]. split; [rewrite app_assoc, Hcat; reflexivity|].
        split; [apply Forall_app; split; [exact Hne|];
                constructor; [destruct (ConsumerPush.event_batch c); discriminate
                             | constructor]|].
        split; [rewrite Hproc, !length_app; simpl; lia|].
        split; [exact Hm'|]. split; [exact Hn'|].
        rewrite Hs', Hs. unfold transaction_ids.
        rewrite !fmap_app, !list_to_set_app_L. reflexivity.
      + simpl. split; [exact Hbs|]. split; [rewrite app_assoc, Hcat; reflexivity|].
        auto. }
  apply G. exists []. rewrite app_nil_r. reflexivity.
Qed.

Lemma feed_invariant_calls batch_size now events :
  let c := ConsumerPush.feed now events (ConsumerPush.__init__ batch_size) in
  concat (ConsumerPush.bulk_insert_calls c) ++ ConsumerPush.event_batch c = events /\
  Forall (fun l => l <> []) (ConsumerPush.bulk_insert_calls c) /\
  ConsumerPush.events_processed c =
    Z.of_nat (length (concat (ConsumerPush.bulk_insert_calls c))).
Proof.
  induction events as [|e events IH] using rev_ind.
  - simpl. repeat split; auto.
  - rewrite feed_snoc. simpl in IH. destruct IH as (Hcat&Hne&Hproc).
    set (c := ConsumerPush.feed now events (ConsumerPush.__init__ batch_size)) in *.
    unfold ConsumerPush.on_event_received.
    cbn [ConsumerPush.batch_size ConsumerPush.event_batch].
    destruct (ConsumerPush.batch_size c <=?
              Z.of_nat (length (ConsumerPush.event_batch c ++ [e]))).
    + unfold ConsumerPush._process_batch, ConsumerPush._bulk_insert. simpl.
      rewrite concat_app. simpl. rewrite !app_nil_r.
      split; [rewrite app_assoc, Hcat; reflexivity|].
      split; [apply Forall_app; split; [exact Hne|];
              constructor; [destruct (ConsumerPush.event_batch c); discriminate
                           | constructor]|].
      rewrite Hproc, !length_app. simpl. lia.
    + simpl. split; [rewrite app_assoc, Hcat; reflexivity|]. auto.
Qed.

(** [finish] after any deliveries: what was flushed and counted. *)
Lemma finish_feed_calls batch_size now now' events :
  let c := ConsumerPush.finish now'
             (ConsumerPush.feed now events (ConsumerPush.__init__ batch_size)) in
  concat (ConsumerPush.bulk_insert_calls c) = events /\
  Forall (fun l => l <> []) (ConsumerPush.bulk_insert_calls c) /\
  ConsumerPush.event_batch c = [] /\
  ConsumerPush.events_processed c = Z.of_nat (length events).
Proof.
  cbv zeta.
  destruct (feed_invariant_calls batch_size now events) as (Hcat&Hne&Hproc).
  set (c := ConsumerPush.feed now events (ConsumerPush.__init__ batch_size)) in *.
  unfold ConsumerPush.finish.
  destruct (ConsumerPush.event_batch c) as [|e rest] eqn:Eb; cbn [nonempty].
  - simpl. rewrite app_nil_r in Hcat. rewrite Eb, Hproc, Hcat. auto.
  - unfold ConsumerPush._process_batch, ConsumerPush._bulk_insert. simpl.
    rewrite Eb, concat_app. simpl. rewrite app_nil_r, Hcat.
    split; [reflexivity|].
    split; [apply Forall_app; split; [exact Hne | constructor; [discriminate|constructor]]|].
    split; [reflexivity|].
    rewrite Hproc, <- Hcat, length_app. simpl. lia.
Qed.

(** [finish] after any deliveries: what was stored. *)
Lemma finish_feed_stored batch_size now now' events :
  keyed events ->
  let c := ConsumerPush.finish now'
             (ConsumerPush.feed now events (ConsumerPush.__init__ batch_size)) in
  ConsumerPush.get_database_stats c = Z.of_nat (size (transaction_ids events)) /\
  (NoDup (transaction_id <$> events) ->
   ConsumerPush.get_database_stats c = Z.of_nat (length events)).
Proof.
  intros Hk. cbv zeta.
  destruct (feed_invariant_any batch_size now events Hk) as (_&Hcat&_&_&Hm&Hn&Hs).
  set (c := ConsumerPush.feed now events (ConsumerPush.__init__ batch_size)) in *.
  assert (H : exists table,
            ConsumerPush.db (ConsumerPush.finish now' c) = table /\
            NoDup (stored_ids table) /\
            list_to_set (stored_ids table) =@{gset string} transaction_ids events).
  { unfold ConsumerPush.finish.
    destruct (ConsumerPush.event_batch c) as [|e rest] eqn:Eb; cbn [nonempty].
    - simpl. eexists. split; [reflexivity|]. split; [exact Hn|].
      rewrite Hs. rewrite app_nil_r in Hcat. rewrite Hcat. reflexivity.
    - unfold ConsumerPush._process_batch, ConsumerPush._bulk_insert. simpl. rewrite Eb.
      destruct (_bulk_insert_keeps events now' (e :: rest) (ConsumerPush.db c) Hk Hm Hn)
        as (_&Hn'&Hs').
      { intros x Hx. rewrite <- Hcat. apply elem_of_app. right. exact Hx. }
      eexists. split; [reflexivity|]. split; [exact Hn'|].
      rewrite Hs', Hs.
      replace (transaction_ids events)
        with (transaction_ids (concat (ConsumerPush.bulk_insert_calls c) ++ e :: rest))
        by (f_equal; exact Hcat).
      unfold transaction_ids. rewrite fmap_app, list_to_set_app_L. reflexivity. }
  destruct H as (table&Et&Hnd&Hset).
  assert (Hcount : ConsumerPush.get_database_stats (ConsumerPush.finish now' c)
                   = Z.of_nat (size (transaction_ids events))).
  { unfold ConsumerPush.get_database_stats, Sink.count. rewrite Et. f_equal.
    rewrite <- (length_fmap Sink.col_transaction_id). fold (stored_ids table).
    rewrite <- (size_list_to_set (C := gset string)) by exact Hnd.
    rewrite Hset. reflexivity. }
  split; [exact Hcount|]. intros Hd. rewrite Hcount. f_equal.
  unfold transaction_ids. rewrite size_list_to_set by exact Hd.
  apply length_fmap.
Qed.




(** ** The pull consumer: draining the queue *)








(** ** The producer *)

Lemma generated_event_ids rnd n : event_id <$> generated rnd n = seqZ 0 n.
Proof.
  unfold generated. rewrite <- list_fmap_compose.
  rewrite <- (list_fmap_id (seqZ 0 n)) at 2. apply list_fmap_ext. reflexivity.
Qed.

Lemma generated_transaction_ids rnd n :
  transaction_id <$> generated rnd n = (fun i => "TXN" +:+ format_0d 10 i) <$> seqZ 0 n.
Proof.
  unfold generated. rewrite <- list_fmap_compose. apply list_fmap_ext. reflexivity.
Qed.

Lemma transaction_id_of_inj : Inj (=) (=) (fun i : Z => "TXN" +:+ format_0d 10 i).
Proof.
  intros a b H. simpl in H. injection H as H. apply (format_0d_inj 10). exact H.
Qed.

Lemma generated_length rnd n : length (generated rnd n) = Z.to_nat n.
Proof. unfold generated. rewrite length_fmap, length_seqZ. reflexivity. Qed.

Lemma generated_unique rnd n : NoDup (transaction_id <$> generated rnd n).
Proof.
  rewrite generated_transaction_ids.
  apply (@NoDup_fmap_2 _ _ _ transaction_id_of_inj). apply NoDup_seqZ.
Qed.

Lemma generated_keyed rnd n : keyed (generated rnd n).
Proof.
  intros e e' He He'. unfold generated in *.
  apply list_elem_of_fmap in He as (i&->&_). apply list_elem_of_fmap in He' as (i'&->&_).
  simpl. split.
  - intros ->. reflexivity.
  - intros H. injection H as H. apply (format_0d_inj 10). exact H.
Qed.

(** X22.  The events of a run: [_generate_event] applied to the ids
    0, 1, ... gives events whose [event_id]s are these ids in order, whose
    [transaction_id]s are all different, and among which two events carry
    the same [event_id] exactly when they carry the same [transaction_id];
    [TXN] is followed by at least ten digits that spell the id. *)
Theorem generated_run_is_well_keyed rnd n :
  event_id <$> generated rnd n = seqZ 0 n /\
  NoDup (transaction_id <$> generated rnd n) /\
  keyed (generated rnd n) /\
  (forall e, e ∈ generated rnd n ->
     exists s, transaction_id e = "TXN" +:+ s /\
       value s = Some (Z.to_N (event_id e)) /\
       (10 <= String.length s)%nat).
Proof.
  split; [apply generated_event_ids|]. split; [apply generated_unique|].
  split; [apply generated_keyed|].
  intros e He. unfold generated in He. apply list_elem_of_fmap in He as (i&->&Hi).
  apply elem_of_seqZ in Hi. simpl.
  exists (format_0d 10 i). split; [reflexivity|].
  unfold format_0d. replace (i <? 0) with false by lia.
  split; [apply value_zfill|].
  unfold zfill. generalize (digits (Z.to_N i)) as s. intros s.
  assert (Hz : forall k t, String.length (zeros k t) = (k + String.length t)%nat).
  { induction k as [|k IH]; intros t; simpl; [reflexivity | rewrite IH; reflexivity]. }
  rewrite Hz. lia.
Qed.

Section ProduceLoop.
Variable rnd : Z -> Producer.draws.
Variable I : Producer.state -> Prop.
Variable allowed : list Event -> Prop.
Variable Sent : list Event -> Producer.state -> Producer.state -> Prop.
Hypothesis allowed_app : forall a b, allowed (a ++ b) -> allowed a /\ allowed b.
Hypothesis Sent_nil : forall st, Sent [] st st.
Hypothesis Sent_app : forall a b st1 st2 st3,
  Sent a st1 st2 -> Sent b st2 st3 -> Sent (a ++ b) st1 st3.
Hypothesis send : forall batch st, I st -> allowed batch ->
  exists st', Producer._send_batch batch st = (st', Return tt) /\ Sent batch st st' /\ I st'.
Hypothesis I_started : forall t0 st, I st -> I (started t0 st).
Hypothesis Sent_started : forall t0 a st st', Sent a (started t0 st) st' -> Sent a st st'.
Hypothesis Sent_ended : forall t1 a st st', Sent a st st' -> Sent a st (ended t1 st').

Lemma produce_loop_sends ids batch st :
  I st ->
  allowed (batch ++ ((fun i => Producer._generate_event (rnd i) i) <$> ids)) ->
  exists sent batch' st',
    Producer.produce_loop rnd ids batch st = (st', Return batch') /\
    sent ++ batch' = batch ++ ((fun i => Producer._generate_event (rnd i) i) <$> ids) /\
    Sent sent st st' /\ I st'.
Proof.
  revert batch st. induction ids as [|i ids IH]; intros batch st HI Hal.
  - exists [], batch, st. simpl. rewrite app_nil_r. repeat split; auto.
  - cbn [Producer.produce_loop]. unfold bind at 1. unfold gets.
    cbn [fmap list_fmap] in Hal.
    set (ev := Producer._generate_event (rnd i) i) in *.
    replace (batch ++ ev :: ((fun i => Producer._generate_event (rnd i) i) <$> ids))
      with ((batch ++ [ev]) ++ ((fun i => Producer._generate_event (rnd i) i) <$> ids))
      in Hal by (rewrite <- app_assoc; reflexivity).
    destruct (Producer.batch_size (snd st) <=? Z.of_nat (length (batch ++ [ev]))).
    + destruct (allowed_app _ _ Hal) as [Hal1 Hal2].
      destruct (send (batch ++ [ev]) st HI Hal1) as (st1&E1&HS1&HI1).
      erewrite bind_Return by exact E1.
      destruct (IH [] st1 HI1 Hal2) as (sent&batch'&st2&E2&Hcat&HS2&HI2).
      exists ((batch ++ [ev]) ++ sent), batch', st2.
      split; [exact E2|]. split.
      { rewrite <- app_assoc, Hcat. cbn [fmap list_fmap]. simpl.
        rewrite <- app_assoc. reflexivity. }
      split; [eapply Sent_app; eassumption | exact HI2].
    + destruct (IH (batch ++ [ev]) st HI Hal) as (sent&batch'&st2&E2&Hcat&HS2&HI2).
      exists sent, batch', st2. split; [exact E2|]. split; [|auto].
      rewrite Hcat. cbn [fmap list_fmap]. rewrite <- app_assoc. reflexivity.
Qed.

Lemma produce_events_sends t0 t1 st :
  I st -> allowed (generated rnd (Producer.num_events (snd st))) ->
  exists st',
    Producer.produce_events rnd t0 t1 st = (st', Return tt) /\
    Sent (generated rnd (Producer.num_events (snd st))) st st'.
Proof.
  intros HI Hal. unfold Producer.produce_events.
  unfold bind at 1. unfold modify at 1. fold (started t0 st).
  unfold bind at 1. unfold gets.
  change (Producer.num_events (snd (started t0 st))) with (Producer.num_events (snd st)).
  destruct (produce_loop_sends (seqZ 0 (Producer.num_events (snd st))) [] (started t0 st))
    as (sent&batch'&st1&E1&Hcat&HS1&HI1); [apply I_started; exact HI | exact Hal|].
  erewrite bind_Return by exact E1. simpl in Hcat. fold (generated rnd (Producer.num_events (snd st))) in Hcat.
  destruct (allowed_app sent batch') as [_ Hal2]; [rewrite Hcat; exact Hal|].
  assert (H2 : exists st2,
            (if nonempty batch' then Producer._send_batch batch' else ret tt) st1
            = (st2, Return tt) /\ Sent batch' st1 st2).
  { destruct batch' as [|e rest]; cbn [nonempty].
    - exists st1. split; [reflexivity | apply Sent_nil].
    - destruct (send (e :: rest) st1 HI1 Hal2) as (st2&E2&HS2&_). eauto. }
  destruct H2 as (st2&E2&HS2). erewrite bind_Return by exact E2.
  eexists. split; [reflexivity|]. fold (ended t1 st2).
  apply Sent_ended. apply (Sent_started t0). rewrite <- Hcat.
  eapply Sent_app; eassumption.
Qed.
End ProduceLoop.

Lemma added_all_pushed items w : pushed (added_all items w) = pushed w.
Proof.
  unfold added_all. revert w. induction items as [|e items IH]; intros w; simpl; auto.
  rewrite IH. reflexivity.
Qed.

Lemma sent_pull_nil st : sent_pull [] st st.
Proof.
  unfold sent_pull, same_producer. simpl. rewrite app_nil_r. repeat split; lia.
Qed.

Lemma sent_pull_app a b st1 st2 st3 :
  sent_pull a st1 st2 -> sent_pull b st2 st3 -> sent_pull (a ++ b) st1 st3.
Proof.
  unfold sent_pull, same_producer.
  intros (A1&A2&A3&A4&A5&A6&A7&A8&A9&A10&A11) (B1&B2&B3&B4&B5&B6&B7&B8&B9&B10&B11).
  rewrite B1, B2, B3, B4, B5, B6, B7, B8, B9, B10, B11.
  rewrite A1, A2, A3, A4, A5, A6, A7, A8, A9, A10, A11.
  rewrite length_app, Nat2Z.inj_add, app_assoc. repeat split; lia.
Qed.

Lemma send_pull batch st :
  plain_pull st -> True ->
  exists st', Producer._send_batch batch st = (st', Return tt) /\
              sent_pull batch st st' /\ plain_pull st'.
Proof.
  destruct st as [w p]. unfold plain_pull. simpl. intros [Hcap Hmode] _.
  unfold Producer._send_batch. unfold bind at 1. unfold gets. simpl. rewrite Hmode.
  unfold bind, Producer.on_manager, modify. simpl.
  rewrite add_events_batch_unbounded by exact Hcap. simpl.
  eexists. split; [reflexivity|].
  destruct (added_all_facts batch w) as (H1&H2&H3&_&H5&H6&H7).
  pose proof (added_all_pushed batch w) as H4.
  unfold sent_pull, same_producer, produced. simpl.
  repeat split; auto. lia.
Qed.

Lemma produce_events_pull rnd t0 t1 st :
  plain_pull st ->
  exists st',
    Producer.produce_events rnd t0 t1 st = (st', Return tt) /\
    sent_pull (generated rnd (Producer.num_events (snd st))) st st'.
Proof.
  intros H.
  apply (produce_events_sends rnd plain_pull (fun _ => True) sent_pull); auto.
  - exact sent_pull_nil.
  - exact sent_pull_app.
  - exact send_pull.
Qed.

Lemma due_each_app w a b : due_each w (a ++ b) = due_each w a ++ due_each w b.
Proof. unfold due_each. apply flat_map_app. Qed.

Lemma due_each_same_setup w w' evs : same_setup w w' -> due_each w' evs = due_each w evs.
Proof. intros (_&H&_). unfold due_each. rewrite H. reflexivity. Qed.

Lemma due_without_batch_callbacks w evs :
  _push_batch_callbacks (mgr w) = [] -> due w (PushMany evs) = due_each w evs.
Proof.
  intros H. cbn [due]. unfold due_batch. rewrite H.
  destruct evs; reflexivity.
Qed.

Lemma sent_push_nil st : sent_push [] st st.
Proof.
  unfold sent_push, same_producer, same_queue, same_setup. simpl.
  rewrite app_nil_r. repeat split; lia.
Qed.

Lemma sent_push_app a b st1 st2 st3 :
  sent_push a st1 st2 -> sent_push b st2 st3 -> sent_push (a ++ b) st1 st3.
Proof.
  unfold sent_push.
  intros (A1&A2&A3&A4&A5&A6&A7) (B1&B2&B3&B4&B5&B6&B7).
  rewrite (due_each_same_setup _ _ b A5) in B1.
  rewrite B1, B2, B3, B6, A1, A2, A3, A6.
  rewrite due_each_app, flat_map_app, length_app, Nat2Z.inj_add, app_assoc.
  split; [reflexivity|]. split; [lia|]. split; [lia|].
  split.
  { destruct A4 as (?&?&?), B4 as (?&?&?). unfold same_queue.
    repeat split; congruence. }
  split.
  { destruct A5 as (?&?&?&?&?&?), B5 as (?&?&?&?&?&?). unfold same_setup.
    repeat split; congruence. }
  split; [lia|].
  destruct A7 as (?&?&?), B7 as (?&?&?). unfold same_producer.
  repeat split; congruence.
Qed.

Lemma send_push cbs batch st :
  ready cbs st -> harmless cbs batch ->
  exists st', Producer._send_batch batch st = (st', Return tt) /\
              sent_push batch st st' /\ ready cbs st'.
Proof.
  destruct st as [w p]. unfold ready, harmless, plain_push. simpl.
  intros [(Hx&Hb&Hmode) Hcbs] Ht.
  unfold Producer._send_batch. unfold bind at 1. unfold gets. simpl. rewrite Hmode.
  unfold bind, Producer.on_manager, modify. simpl.
  pose proof (perform_sync (PushMany batch) w Hx) as E.
  rewrite (due_without_batch_callbacks w batch Hb) in E.
  unfold due_each in E at 1. rewrite Hcbs in E. specialize (E Ht).
  cbn [perform credited] in E. rewrite E. simpl.
  eexists. split; [reflexivity|].
  destruct w as [[] ? ?]. simpl in *.
  unfold sent_push, same_producer, same_queue, same_setup, produced,
    pushed, received, queued, capacity, has_executor, accepting. simpl.
  repeat split; auto; lia.
Qed.

Lemma produce_events_push cbs rnd t0 t1 st :
  ready cbs st -> harmless cbs (generated rnd (Producer.num_events (snd st))) ->
  exists st',
    Producer.produce_events rnd t0 t1 st = (st', Return tt) /\
    sent_push (generated rnd (Producer.num_events (snd st))) st st'.
Proof.
  intros H Hh.
  apply (produce_events_sends rnd (ready cbs) (harmless cbs) sent_push); auto.
  - intros a b. unfold harmless. rewrite flat_map_app, forallb_app.
    intros Hab. apply andb_prop in Hab. exact Hab.
  - exact sent_push_nil.
  - exact sent_push_app.
  - exact (send_push cbs).
Qed.

Lemma harmless_returning id evs : harmless [returning id] evs.
Proof.
  unfold harmless. induction evs as [|e evs IH]; [reflexivity|].
  change (forallb tame (flat_map (fun ev => map (fun cb => (cb, PEvent ev)) [returning id])
                          (e :: evs)))
    with (tame (returning id, PEvent e) &&
          forallb tame (flat_map (fun ev => map (fun cb => (cb, PEvent ev)) [returning id])
                          evs)).
  rewrite IH. reflexivity.
Qed.

Lemma events_called_returning id evs tr :
  events_called id tr = [] ->
  events_called id
    (tr ++ flat_map call_trace
             (flat_map (fun ev => map (fun cb => (cb, PEvent ev)) [returning id]) evs))
  = evs.
Proof.
  intros Htr. unfold events_called in *. rewrite omap_app, Htr. simpl.
  induction evs as [|e evs IH]; [reflexivity|].
  cbn [flat_map map app call_trace returning cb_id cb_body fst snd omap].
  cbn [omap list_omap]. rewrite Nat.eqb_refl. f_equal. exact IH.
Qed.

(** X23.  A producer in PULL mode on a queue without bound: [produce_events]
    returns, without having waited for another thread and without a log
    entry, whatever the batch size; the events it generated, one for each id
    from 0 up to [num_events - 1], are behind what was queued, in this
    order; the received and queued counters and [events_produced] are up by
    their number and the pushed counter is as before. *)
Theorem produce_events_enqueues_every_event rnd t0 t1 w p :
  capacity w <= 0 -> Producer.push_mode p = false ->
  exists w' p',
    Producer.produce_events rnd t0 t1 (w, p) = ((w', p'), Return tt) /\
    in_queue w' = in_queue w ++ generated rnd (Producer.num_events p) /\
    received w' = received w + Z.max 0 (Producer.num_events p) /\
    queued w' = queued w + Z.max 0 (Producer.num_events p) /\
    pushed w' = pushed w /\
    trace w' = trace w /\
    env w' = env w /\
    Producer.events_produced p' = Producer.events_produced p + Z.max 0 (Producer.num_events p).
Proof.
  intros Hcap Hmode.
  destruct (produce_events_pull rnd t0 t1 (w, p)) as ([w' p']&E&HS);
    [split; assumption|].
  exists w', p'. split; [exact E|].
  destruct HS as (H1&H2&H3&H4&_&H6&H7&H8&_). simpl in *.
  unfold produced in H8. simpl in H8.
  rewrite generated_length in *.
  repeat split; auto; lia.
Qed.

Lemma produce_events_enqueues_every_event_witness :
  let rnd := fun _ : Z => some_draws in
  let w := fresh 0 None [] in
  let p := Producer.__init__ 5 2 false in
  exists w' p',
    Producer.produce_events rnd 10 20 (w, p) = ((w', p'), Return tt) /\
    in_queue w' = in_queue w ++ generated rnd (Producer.num_events p) /\
    received w' = received w + Z.max 0 (Producer.num_events p) /\
    queued w' = queued w + Z.max 0 (Producer.num_events p) /\
    pushed w' = pushed w /\
    trace w' = trace w /\
    env w' = env w /\
    Producer.events_produced p' = Producer.events_produced p + Z.max 0 (Producer.num_events p).
Proof.
  intros rnd w p. apply (produce_events_enqueues_every_event rnd 10 20 w p).
  - vm_compute. discriminate.
  - reflexivity.
Defined.

(** X24.  A producer in PUSH mode on a manager without a pool and without
    per-batch callbacks, whose per-event callbacks return or raise instances
    of [Exception] on the events generated: [produce_events] returns; it has
    called every per-event callback once on every event, event after event
    in the order of the ids and, for one event, in the order of
    registration, whatever the batch size; the queue is untouched; the
    received and pushed counters and [events_produced] are up by the number
    of events. *)
Theorem produce_events_pushes_every_event rnd t0 t1 w p :
  has_executor w = false ->
  _push_batch_callbacks (mgr w) = [] ->
  Producer.push_mode p = true ->
  forallb tame (due_each w (generated rnd (Producer.num_events p))) = true ->
  exists w' p',
    Producer.produce_events rnd t0 t1 (w, p) = ((w', p'), Return tt) /\
    trace w' =
      trace w ++ flat_map call_trace (due_each w (generated rnd (Producer.num_events p))) /\
    pushed w' = pushed w + Z.max 0 (Producer.num_events p) /\
    received w' = received w + Z.max 0 (Producer.num_events p) /\
    same_queue w w' /\
    Producer.events_produced p' = Producer.events_produced p + Z.max 0 (Producer.num_events p).
Proof.
  intros Hx Hb Hmode Ht.
  destruct (produce_events_push (_push_event_callbacks (mgr w)) rnd t0 t1 (w, p))
    as ([w' p']&E&HS).
  { split; [repeat split; assumption | reflexivity]. }
  { exact Ht. }
  exists w', p'. split; [exact E|].
  destruct HS as (H1&H2&H3&H4&_&H6&_). simpl in *.
  unfold produced in H6. simpl in H6.
  rewrite generated_length in *.
  repeat split; auto; try lia; apply H4.
Qed.

Lemma produce_events_pushes_every_event_witness :
  let rnd := fun _ : Z => some_draws in
  let w := fst (register_push_callback (raising 2 (ValueError "bad event"))
                  (fst (register_push_callback (returning 1) (fresh 0 None [])))) in
  let p := Producer.__init__ 5 2 true in
  exists w' p',
    Producer.produce_events rnd 10 20 (w, p) = ((w', p'), Return tt) /\
    trace w' =
      trace w ++ flat_map call_trace (due_each w (generated rnd (Producer.num_events p))) /\
    pushed w' = pushed w + Z.max 0 (Producer.num_events p) /\
    received w' = received w + Z.max 0 (Producer.num_events p) /\
    same_queue w w' /\
    Producer.events_produced p' = Producer.events_produced p + Z.max 0 (Producer.num_events p).
Proof.
  intros rnd w p. apply (produce_events_pushes_every_event rnd 10 20 w p); reflexivity.
Defined.

(** X25.  [run_push_model] returns, and the three counts it reports agree:
    the number produced, the number processed and the number of rows stored
    are all [num_events], or 0 if that is negative, whatever the batch size
    and whatever the random source and the clock give. *)
Theorem run_push_model_counts_agree rnd t0 t1 now now' num_events batch_size :
  run_push_model rnd t0 t1 now now' num_events batch_size =
  Return (mkResults (Z.max 0 num_events) (Z.max 0 num_events) (Z.max 0 num_events)).
Proof.
  unfold run_push_model.
  set (manager := fst (ConsumerPush.register 0 (fresh 0 None []))).
  set (producer := Producer.__init__ num_events batch_size true).
  destruct (produce_events_push [returning 0] rnd t0 t1 (manager, producer))
    as ([w' p']&E&HS).
  { repeat split. }
  { apply harmless_returning. }
  rewrite E. destruct HS as (H1&_&_&_&_&H6&_). simpl in H1, H6.
  unfold produced in H6. simpl in H6. rewrite generated_length in H6.
  rewrite H1.
  change (due_each manager (generated rnd num_events))
    with (flat_map (fun ev => map (fun cb => (cb, PEvent ev)) [returning 0])
            (generated rnd num_events)).
  pose proof (events_called_returning 0 (generated rnd num_events) [] eq_refl) as Hc.
  cbn [app] in Hc. rewrite Hc.
  destruct (finish_feed_calls batch_size now now' (generated rnd num_events))
    as (_&_&_&Hproc).
  destruct (finish_feed_stored batch_size now now' (generated rnd num_events)
              (generated_keyed rnd num_events)) as (_&Hdb).
  specialize (Hdb (generated_unique rnd num_events)).
  cbv zeta in Hproc, Hdb. rewrite Hproc, Hdb, H6, generated_length.
  f_equal. f_equal; lia.
Qed.
